(** * mods: the cycling-characters animation (cyclingchars.go)

    A shallow embedding of the animation model of [cyclingchars.go] and the
    properties of its state function, constructor, update loop and gradient
    helpers.

    Conventions of the embedding.
    - Go's [int], [rune], [time.Duration] and the monotonic reading of
      [time.Time] are integers in [Z]; [int] is 64 bits wide, and the one
      place where the width matters (the conversion [int(initialCharsSize)])
      writes the wrap-around out.
    - A Go [string] is its sequence of bytes ([String.string]); [[]rune(s)]
      and [string(r)] are the UTF-8 decoder and encoder of the Go runtime.
    - [time.Now] and [math/rand] are read from an explicit [World]; a run-time
      panic is the [Panic] result of the monad [M]. *)

From Stdlib Require Import String Ascii ZArith List Bool Lia Arith Permutation.
Import ListNotations.
Local Open Scope Z_scope.

(** ** Results, panics and the world *)

Inductive PanicKind : Type :=
| MakesliceLenOutOfRange
| IndexOutOfRange (index len : Z)
| InvalidArgument.

(** The world outside the program: the successive readings of the monotonic
    clock and the successive accepted samples of the random source, each with
    the number of values consumed so far. *)
Record World : Type := mkWorld {
  nowReadings : nat -> Z;
  nowCount : nat;
  rndSamples : nat -> Z;
  rndCount : nat
}.

Inductive Res (A : Type) : Type :=
| Ok (a : A) (w : World)
| Panic (p : PanicKind).
Arguments Ok {A} a w.
Arguments Panic {A} p.

Definition M (A : Type) : Type := World -> Res A.

Definition ret {A} (a : A) : M A := fun w => Ok a w.

Definition bind {A B} (m : M A) (k : A -> M B) : M B :=
  fun w => match m w with
           | Ok a w' => k a w'
           | Panic p => Panic p
           end.

Definition panic {A} (p : PanicKind) : M A := fun _ => Panic p.

Notation "x <- m ;; k" := (bind m (fun x => k))
  (at level 61, m at next level, right associativity).

(** [time.Now()]: the next reading of the clock. *)
Definition timeNow : M Z :=
  fun w => Ok (nowReadings w (nowCount w))
              (mkWorld (nowReadings w) (S (nowCount w)) (rndSamples w) (rndCount w)).

(** [rand.Intn(n)] and [rand.Int31n(n)]: both panic unless [n > 0] and
    otherwise reduce an accepted sample modulo [n]. *)
Definition randIntn (n : Z) : M Z :=
  fun w => if n <=? 0 then Panic InvalidArgument
           else Ok (rndSamples w (rndCount w) mod n)
                   (mkWorld (nowReadings w) (nowCount w) (rndSamples w) (S (rndCount w))).

Definition randInt31n (n : Z) : M Z := randIntn n.

(** The clock that [time.Now] reads is monotonic. *)
Definition monotonic (w : World) : Prop :=
  forall i j : nat, (i <= j)%nat -> nowReadings w i <= nowReadings w j.

(** Skipping [k] readings of the clock. *)
Definition skipNow (k : nat) (w : World) : World :=
  mkWorld (nowReadings w) (nowCount w + k) (rndSamples w) (rndCount w).

(** ** Slices *)

Definition len {A} (l : list A) : Z := Z.of_nat (length l).

(** [make([]T, n)]: panics on a negative length. *)
Definition make {A} (zero : A) (n : Z) : M (list A) :=
  if n <? 0 then panic MakesliceLenOutOfRange
  else ret (repeat zero (Z.to_nat n)).

Fixpoint replaceNth {A} (l : list A) (i : nat) (x : A) : list A :=
  match l, i with
  | [], _ => []
  | _ :: t, O => x :: t
  | h :: t, S j => h :: replaceNth t j x
  end.

(** [s[i] = x]: panics when [i] is out of range. *)
Definition setIndex {A} (l : list A) (i : Z) (x : A) : M (list A) :=
  if (i <? 0) || (len l <=? i) then panic (IndexOutOfRange i (len l))
  else ret (replaceNth l (Z.to_nat i) x).

(** [s[i]]: panics when [i] is out of range. *)
Definition getIndex {A} (l : list A) (i : Z) : M A :=
  if i <? 0 then panic (IndexOutOfRange i (len l))
  else match nth_error l (Z.to_nat i) with
       | Some x => ret x
       | None => panic (IndexOutOfRange i (len l))
       end.

(** [for i := from; i < from + count; i++ { body }], the loop state threaded
    through the body. *)
Fixpoint forUpTo {St} (count : nat) (i : Z) (body : Z -> St -> M St) (s : St) : M St :=
  match count with
  | O => ret s
  | S k => s' <- body i s ;; forUpTo k (i + 1) body s'
  end.

(** [for i, x := range l { body }]. *)
Fixpoint forRange {A St} (l : list A) (i : Z) (body : Z -> A -> St -> M St) (s : St) : M St :=
  match l with
  | [] => ret s
  | x :: t => s' <- body i x s ;; forRange t (i + 1) body s'
  end.

(** The indices [i], [i + 1], ..., [i + k - 1]. *)
Fixpoint indices (i : Z) (k : nat) : list Z :=
  match k with
  | O => []
  | S k' => i :: indices (i + 1) k'
  end.

(** ** Strings and runes *)

Definition bytesOf (s : string) : list Z :=
  map (fun a => Z.of_N (N_of_ascii a)) (list_ascii_of_string s).

Definition runeError : Z := 65533.

(** The rune at the head of a byte sequence and its width, as the runtime
    decodes it: an invalid or truncated encoding is [runeError], width 1. *)
Definition decodeRune (s : list Z) : Z * nat :=
  let cont b := (128 <=? b) && (b <=? 191) in
  match s with
  | [] => (runeError, 1%nat)
  | b0 :: rest =>
      if b0 <? 128 then (b0, 1%nat)
      else if (192 <=? b0) && (b0 <? 224) then
        match rest with
        | b1 :: _ =>
            let r := Z.lor (Z.shiftl (Z.land b0 31) 6) (Z.land b1 63) in
            if cont b1 && (127 <? r) then (r, 2%nat) else (runeError, 1%nat)
        | _ => (runeError, 1%nat)
        end
      else if (224 <=? b0) && (b0 <? 240) then
        match rest with
        | b1 :: b2 :: _ =>
            let r := Z.lor (Z.lor (Z.shiftl (Z.land b0 15) 12)
                                  (Z.shiftl (Z.land b1 63) 6)) (Z.land b2 63) in
            if cont b1 && cont b2 && (2047 <? r)
               && negb ((55296 <=? r) && (r <=? 57343))
            then (r, 3%nat) else (runeError, 1%nat)
        | _ => (runeError, 1%nat)
        end
      else if (240 <=? b0) && (b0 <? 248) then
        match rest with
        | b1 :: b2 :: b3 :: _ =>
            let r := Z.lor (Z.lor (Z.lor (Z.shiftl (Z.land b0 7) 18)
                                         (Z.shiftl (Z.land b1 63) 12))
                                  (Z.shiftl (Z.land b2 63) 6)) (Z.land b3 63) in
            if cont b1 && cont b2 && cont b3 && (65535 <? r) && (r <=? 1114111)
            then (r, 4%nat) else (runeError, 1%nat)
        | _ => (runeError, 1%nat)
        end
      else (runeError, 1%nat)
  end.

(** Decoding a whole byte sequence; [skip] counts the bytes still to be
    passed over of the rune decoded last. *)
Fixpoint decodeFrom (skip : nat) (s : list Z) : list Z :=
  match s with
  | [] => []
  | b :: rest =>
      match skip with
      | S k => decodeFrom k rest
      | O => let (r, w) := decodeRune (b :: rest) in
             r :: decodeFrom (Nat.pred w) rest
      end
  end.

(** [[]rune(s)]. *)
Definition runesOf (s : string) : list Z := decodeFrom 0 (bytesOf s).

Definition stringOfBytes (l : list Z) : string :=
  string_of_list_ascii (map (fun b => ascii_of_N (Z.to_N b)) l).

(** [string(r)]: the UTF-8 encoding of a rune, of [runeError] when the rune
    is not a valid code point. *)
Definition encodeRune (r : Z) : list Z :=
  let enc3 r := [Z.lor 224 (Z.shiftr r 12);
                 Z.lor 128 (Z.land (Z.shiftr r 6) 63);
                 Z.lor 128 (Z.land r 63)] in
  if (0 <=? r) && (r <? 128) then [r]
  else if (128 <=? r) && (r <? 2048) then
    [Z.lor 192 (Z.shiftr r 6); Z.lor 128 (Z.land r 63)]
  else if (r <? 0) || (1114111 <? r) || ((55296 <=? r) && (r <=? 57343)) then
    enc3 runeError
  else if r <? 65536 then enc3 r
  else [Z.lor 240 (Z.shiftr r 18);
        Z.lor 128 (Z.land (Z.shiftr r 12) 63);
        Z.lor 128 (Z.land (Z.shiftr r 6) 63);
        Z.lor 128 (Z.land r 63)].

Definition stringOfRune (r : Z) : string := stringOfBytes (encodeRune r).

(** ** Constants *)

Definition maxCyclingChars : Z := 120.

Definition millisecond : Z := 1000000.

(** [charRunes = []rune("0123456789abcdefABCDEF~!@#$£€%^&*()+=_")]. *)
Definition charRunes : list Z :=
  Eval vm_compute in runesOf "0123456789abcdefABCDEF~!@#$£€%^&*()+=_".

(** ** Collaborators

    The libraries the animation is built on (float64 arithmetic, go-colorful,
    lipgloss, the bubbles spinner) are outside the repository; the model takes
    them as an interface. *)

Class Collaborators : Type := {
  (** [float64], the conversion [float64(i)] and the division. *)
  Float : Type;
  floatOfInt : Z -> Float;
  floatDiv : Float -> Float -> Float;
  (** [colorful.Color], [colorful.Hex] (its error dropped as in the source),
      [Color.BlendLuv] and [Color.Hex]. *)
  Colorful : Type;
  colorfulHex : string -> Colorful;
  blendLuv : Colorful -> Colorful -> Float -> Colorful;
  hexOf : Colorful -> string;
  (** [lipgloss.Style]: its zero value, [Renderer.NewStyle],
      [Style.Foreground] over a [lipgloss.Color] (a string) and
      [Style.Render]. *)
  Style : Type;
  zeroStyle : Style;
  newStyle : Style;
  foreground : Style -> string -> Style;
  render : Style -> string -> string;
  (** [spinner.Model], [spinner.TickMsg], the command a spinner returns,
      [spinner.New(spinner.WithSpinner(ellipsisSpinner))], [Model.Update] and
      [Model.View]. *)
  SpinnerModel : Type;
  SpinnerTickMsg : Type;
  SpinnerCmd : Type;
  spinnerNew : SpinnerModel;
  spinnerUpdate : SpinnerModel -> SpinnerTickMsg -> SpinnerModel * option SpinnerCmd;
  spinnerView : SpinnerModel -> string
}.

(** ** A single animated character *)

Inductive charState : Type :=
| charInitialState
| charCyclingState
| charEndOfLifeState.

Definition charState_eqb (a b : charState) : bool :=
  match a, b with
  | charInitialState, charInitialState => true
  | charCyclingState, charCyclingState => true
  | charEndOfLifeState, charEndOfLifeState => true
  | _, _ => false
  end.

Record cyclingChar : Type := mkChar {
  finalValue : Z;   (* if < 0 cycle forever *)
  currentValue : Z;
  initialDelay : Z;
  lifetime : Z
}.

Definition zeroChar : cyclingChar := mkChar 0 0 0 0.

(** [randomRune]: [charRunes[rand.Intn(len(charRunes))]]. *)
Definition randomRune : M Z :=
  k <- randIntn (len charRunes) ;; getIndex charRunes k.

(** The body of [state] once [time.Now()] has been read:
    [now.Before(start.Add(d))] is [now < start + d] and
    [now.After(start.Add(d))] is [now > start + d]. *)
Definition stateAt (c : cyclingChar) (start now : Z) : charState :=
  if now <? start + initialDelay c then charInitialState
  else if (finalValue c >? 0) && (now >? start + initialDelay c)
       then charEndOfLifeState
       else charCyclingState.

Definition state (c : cyclingChar) (start : Z) : M charState :=
  now <- timeNow ;; ret (stateAt c start now).

(** ** Messages and commands *)

Section Animation.
Context {col : Collaborators}.

Inductive Msg : Type :=
| stepCharsMsg
| spinnerTickMsg (t : SpinnerTickMsg)
| otherMsg.

(** The commands the model hands to the runtime: the next step of the
    characters ([stepChars()]), the delayed first tick of the ellipsis, and
    whatever the spinner asks for. *)
Inductive Cmd : Type :=
| stepCharsCmd
| ellipsisStartCmd
| spinnerCmd (c : SpinnerCmd).

(** [tea.Batch]: the commands that are not nil. *)
Definition batch (cmds : list (option Cmd)) : list Cmd :=
  flat_map (fun c => match c with Some x => [x] | None => [] end) cmds.

(** ** The gradient *)

Definition startColor : string := "#F967DC".
Definition endColor : string := "#6B50FF".

(** The colour of step [i] of a ramp of [length] steps. *)
Definition rampStep (length i : Z) : string :=
  hexOf (blendLuv (colorfulHex startColor) (colorfulHex endColor)
                  (floatDiv (floatOfInt i) (floatOfInt length))).

Definition makeGradientRamp (length : Z) : M (list string) :=
  c <- make EmptyString length ;;
  forUpTo (Z.to_nat length) 0 (fun i c => setIndex c i (rampStep length i)) c.

Definition makeGradientText (baseStyle : Style) (str : string) : M string :=
  let minSize := 3 in
  if len (bytesOf str) <? minSize then ret str
  else
    let runes := runesOf str in
    ramp <- makeGradientRamp (len (bytesOf str)) ;;
    forRange ramp 0
      (fun i c b =>
         r <- getIndex runes i ;;
         ret (b ++ render (foreground baseStyle c) (stringOfRune r))%string)
      EmptyString.

(** ** The animation model *)

Record cyclingChars : Type := mkChars {
  start : Z;
  chars : list cyclingChar;
  ramp : list Style;
  label : list Z;
  ellipsis : SpinnerModel;
  ellipsisStarted : bool;
  styles : Style   (* the field [cyclingChars] of [styles] *)
}.

(** [int(initialCharsSize)]: a [uint] of 64 bits read as an [int]. *)
Definition intOfUint (u : Z) : Z :=
  (u + 2 ^ 63) mod 2 ^ 64 - 2 ^ 63.

Definition makeDelay (a b : Z) : M Z :=
  k <- randInt31n a ;; ret (k * (millisecond * b)).

Definition makeInitialDelay : M Z := makeDelay 8 60.

(** The placeholder count after the clamp. *)
Definition clampedSize (initialCharsSize : Z) : Z :=
  let n := intOfUint initialCharsSize in
  if n >? maxCyclingChars then maxCyclingChars else n.

Definition newCyclingChars (initialCharsSize : Z) (lbl : string)
    (trueColor : bool) (s : Style) : M cyclingChars :=
  let n := clampedSize initialCharsSize in
  let gap := if n =? 0 then EmptyString else " "%string in
  now <- timeNow ;;
  let lblRunes := runesOf (gap ++ lbl) in
  let minRampSize := 3 in
  rmp <- (if (n >=? minRampSize) && trueColor then
            r0 <- make zeroStyle n ;;
            colors <- makeGradientRamp n ;;
            forRange colors 0
              (fun i color r => setIndex r i (foreground newStyle color)) r0
          else ret []) ;;
  cs <- make zeroChar (n + len lblRunes) ;;
  (* Initial characters that cycle forever. *)
  cs <- forUpTo (Z.to_nat n) 0
          (fun i cs =>
             d <- makeInitialDelay ;;
             setIndex cs i (mkChar (-1) 0 d 0)) cs ;;
  (* Label text that only cycles for a little while. *)
  cs <- forRange lblRunes 0
          (fun i r cs =>
             d <- makeInitialDelay ;;
             l <- makeDelay 5 180 ;;
             setIndex cs (i + n) (mkChar r 0 d l)) cs ;;
  ret (mkChars now cs rmp lblRunes spinnerNew false s).

(** [Init]. *)
Definition Init (c : cyclingChars) : list Cmd := [stepCharsCmd].

(** [c.chars[i].currentValue = v]. *)
Definition setCurrentValue (cs : list cyclingChar) (i v : Z) : M (list cyclingChar) :=
  ch <- getIndex cs i ;;
  setIndex cs i (mkChar (finalValue ch) v (initialDelay ch) (lifetime ch)).

(** The first loop of [Update]: every character gets the glyph of its
    state. *)
Definition stepBody (st : Z) (i : Z) (char : cyclingChar)
    (cs : list cyclingChar) : M (list cyclingChar) :=
  s <- state char st ;;
  match s with
  | charInitialState => setCurrentValue cs i 46
  | charCyclingState => r <- randomRune ;; setCurrentValue cs i r
  | charEndOfLifeState => setCurrentValue cs i (finalValue char)
  end.

(** The second loop of [Update]: the characters at end of life. *)
Definition countBody (st : Z) (i : Z) (char : cyclingChar) (eol : Z) : M Z :=
  s <- state char st ;;
  ret (if charState_eqb s charEndOfLifeState then eol + 1 else eol).

Definition withChars (c : cyclingChars) (cs : list cyclingChar) : cyclingChars :=
  mkChars (start c) cs (ramp c) (label c) (ellipsis c) (ellipsisStarted c) (styles c).

Definition withEllipsisStarted (c : cyclingChars) (b : bool) : cyclingChars :=
  mkChars (start c) (chars c) (ramp c) (label c) (ellipsis c) b (styles c).

Definition withEllipsis (c : cyclingChars) (e : SpinnerModel) : cyclingChars :=
  mkChars (start c) (chars c) (ramp c) (label c) e (ellipsisStarted c) (styles c).

Definition Update (c : cyclingChars) (msg : Msg) : M (cyclingChars * list Cmd) :=
  match msg with
  | stepCharsMsg =>
      cs <- forRange (chars c) 0 (stepBody (start c)) (chars c) ;;
      let c := withChars c cs in
      if negb (ellipsisStarted c) then
        eol <- forRange (chars c) 0 (countBody (start c)) 0 ;;
        if eol =? len (label c) then
          (* The entire label has reached end of life: start the ellipsis. *)
          ret (withEllipsisStarted c true,
               batch [Some stepCharsCmd; Some ellipsisStartCmd])
        else ret (c, batch [Some stepCharsCmd; None])
      else ret (c, batch [Some stepCharsCmd; None])
  | spinnerTickMsg t =>
      let (e, cmd) := spinnerUpdate (ellipsis c) t in
      ret (withEllipsis c e,
           match cmd with Some x => [spinnerCmd x] | None => [] end)
  | otherMsg => ret (c, [])
  end.

(** [View]. *)
Definition viewBody (c : cyclingChars) (i : Z) (char : cyclingChar)
    (b : string) : M string :=
  let r := currentValue char in
  s <- (if (len (ramp c) >? 0) && (i <? len (ramp c)) then
          st <- getIndex (ramp c) i ;; ret (Some st)
        else if finalValue char <? 0 then ret (Some (styles c))
        else ret None) ;;
  match s with
  | Some st => ret (b ++ render st (stringOfRune r))%string
  | None => ret (b ++ stringOfRune r)%string
  end.

Definition View (c : cyclingChars) : M string :=
  b <- forRange (chars c) 0 (viewBody c) EmptyString ;;
  ret (b ++ spinnerView (ellipsis c))%string.

End Animation.

(** ** Runs of the model and what they are measured against *)

Section Runs.
Context {col : Collaborators}.

(** The placeholder prefix and the label suffix of the characters. *)
Definition placeholders (c : cyclingChars) : list cyclingChar :=
  firstn (length (chars c) - length (label c)) (chars c).

Definition labelChars (c : cyclingChars) : list cyclingChar :=
  skipn (length (chars c) - length (label c)) (chars c).

(** The shape [newCyclingChars] gives the characters: placeholders carrying
    the sentinel [-1], then one character per rune of the label. *)
Definition wellFormed (c : cyclingChars) : Prop :=
  map finalValue (chars c) =
  repeat (-1) (length (chars c) - length (label c)) ++ label c.

(** The label of the constructor: the separator is there unless the clamped
    size is zero. *)
Definition labelOf (n : Z) (lbl : string) : list Z :=
  runesOf ((if n =? 0 then EmptyString else " "%string) ++ lbl).

(** The ramp of the constructor. *)
Definition rampOf (n : Z) (trueColor : bool) : list Style :=
  if (n >=? 3) && trueColor
  then map (foreground newStyle) (map (rampStep n) (indices 0 (Z.to_nat n)))
  else [].

(** What the first loop of the constructor writes into a slot. *)
Definition isPlaceholder (ch : cyclingChar) : Prop :=
  finalValue ch = -1 /\ currentValue ch = 0 /\ lifetime ch = 0 /\
  exists k, 0 <= k < 8 /\ initialDelay ch = k * (60 * millisecond).

(** The number of characters of [cs] at end of life when the [k]-th and
    following readings [rd] of the clock are taken for them in turn. *)
Fixpoint countEol (st : Z) (rd : nat -> Z) (k : nat) (cs : list cyclingChar) : Z :=
  match cs with
  | [] => 0
  | ch :: t =>
      (if charState_eqb (stateAt ch st (rd k)) charEndOfLifeState then 1 else 0)
      + countEol st rd (S k) t
  end.

Fixpoint allEol (st : Z) (rd : nat -> Z) (k : nat) (cs : list cyclingChar) : bool :=
  match cs with
  | [] => true
  | ch :: t =>
      charState_eqb (stateAt ch st (rd k)) charEndOfLifeState
      && allEol st rd (S k) t
  end.

(** Every label character is at end of life in the readings that the second
    loop of a tick taken in world [w] makes for it (the first loop has read
    the clock once per character before). *)
Definition labelResolved (c : cyclingChars) (w : World) : bool :=
  allEol (start c) (nowReadings w)
         (nowCount w + length (chars c) + length (placeholders c))
         (labelChars c).

Record Step : Type := mkStep {
  pre : cyclingChars;
  preWorld : World;
  stepMsg : Msg;
  post : cyclingChars;
  stepCmds : list Cmd
}.

(** The steps of the model over a sequence of messages, each [Update]
    applied to the model the previous one returned. *)
Fixpoint trace (msgs : list Msg) (c : cyclingChars) (w : World) : list Step :=
  match msgs with
  | [] => []
  | m :: ms =>
      match Update c m w with
      | Ok (c', cmds) w' => mkStep c w m c' cmds :: trace ms c' w'
      | Panic _ => []
      end
  end.

(** A step is a tick on which the label is resolved. *)
Definition resolvesAt (s : Step) : Prop :=
  stepMsg s = stepCharsMsg /\ labelResolved (pre s) (preWorld s) = true.

(** A step turns [ellipsisStarted] from false to true. *)
Definition startsEllipsis (s : Step) : Prop :=
  ellipsisStarted (pre s) = false /\ ellipsisStarted (post s) = true.

(** A character is settled: its final value is positive, its delay has
    elapsed at the next reading of the clock, and it shows its final
    value. *)
Definition settled (c : cyclingChars) (w : World) (j : nat) : Prop :=
  exists ch, nth_error (chars c) j = Some ch /\ 0 < finalValue ch /\
             start c + initialDelay ch < nowReadings w (nowCount w) /\
             currentValue ch = finalValue ch.

(** The models a program can hold: the ones the constructor returns and the
    ones [Update] returns on them. *)
Inductive reachable : cyclingChars -> Prop :=
| reach_new (u : Z) (lbl : string) (trueColor : bool) (s : Style)
    (w w' : World) (c : cyclingChars) :
    newCyclingChars u lbl trueColor s w = Ok c w' -> reachable c
| reach_update (c c' : cyclingChars) (m : Msg) (cmds : list Cmd) (w w' : World) :
    reachable c -> Update c m w = Ok (c', cmds) w' -> reachable c'.

(** The glyph [v] agrees with the state of [ch] at the reading [now]. *)
Definition glyphOf (ch : cyclingChar) (st now v : Z) : Prop :=
  match stateAt ch st now with
  | charInitialState => v = 46
  | charCyclingState => In v charRunes
  | charEndOfLifeState => v = finalValue ch
  end.

End Runs.

(** ** Measures of the animation *)

(** The order in which a character passes through its states. *)
Definition stateRank (s : charState) : nat :=
  match s with
  | charInitialState => 0
  | charCyclingState => 1
  | charEndOfLifeState => 2
  end.

(** The longest initial delay [makeDelay(8, 60)] can draw: 7 times 60 ms. *)
Definition longestInitialDelay : Z := 7 * (60 * millisecond).

(** What the second loop of the constructor writes into the slot of the
    label rune [r]. *)
Definition isLabelChar (r : Z) (ch : cyclingChar) : Prop :=
  finalValue ch = r /\ currentValue ch = 0 /\
  (exists k, 0 <= k < 8 /\ initialDelay ch = k * (60 * millisecond)) /\
  (exists k, 0 <= k < 5 /\ lifetime ch = k * (180 * millisecond)).

(** The strings of a list one after the other. *)
Definition joinStrings (l : list string) : string :=
  fold_right append EmptyString l.

Section Rendering.
Context {col : Collaborators}.

(** What [View] writes for the character [ch] at index [i]: the glyph in
    the style of the ramp at [i] when the ramp reaches that far, in the
    style of the cycling characters when the character cycles forever, and
    bare otherwise. *)
Definition viewPiece (c : cyclingChars) (i : nat) (ch : cyclingChar) : string :=
  match nth_error (ramp c) i with
  | Some st => render st (stringOfRune (currentValue ch))
  | None => if finalValue ch <? 0
            then render (styles c) (stringOfRune (currentValue ch))
            else stringOfRune (currentValue ch)
  end.

Fixpoint viewPieces (c : cyclingChars) (i : nat) (cs : list cyclingChar) : list string :=
  match cs with
  | [] => []
  | ch :: t => viewPiece c i ch :: viewPieces c (S i) t
  end.

(** The glyphs of [cs] in the styles [sts], one style per character. *)
Definition styledGlyphs (sts : list Style) (cs : list cyclingChar) : list string :=
  map (fun p => render (fst p) (stringOfRune (currentValue (snd p))))
      (combine sts cs).

Definition bareGlyphs (cs : list cyclingChar) : list string :=
  map (fun ch => stringOfRune (currentValue ch)) cs.

(** The gradient text of the runes [rs] over a ramp of [L] steps from step
    [i] on. *)
Fixpoint gradientPieces (st : Style) (L : Z) (i : Z) (rs : list Z) : list string :=
  match rs with
  | [] => []
  | r :: t => render (foreground st (rampStep L i)) (stringOfRune r)
              :: gradientPieces st L (i + 1) t
  end.

End Rendering.

(** ** A concrete world and concrete collaborators

    Used to run the model on examples: a clock that advances one second per
    reading, a random source that counts up, colours blended by picking an
    endpoint, and a spinner that counts its ticks. *)

Definition plainCollaborators : Collaborators := {|
  Float := Z * Z;
  floatOfInt := fun i => (i, 1);
  floatDiv := fun a b => (fst a, fst b);
  Colorful := string;
  colorfulHex := fun s => s;
  blendLuv := fun a b t => if fst t =? 0 then a else b;
  hexOf := fun c => c;
  Style := option string;
  zeroStyle := None;
  newStyle := None;
  foreground := fun _ c => Some c;
  render := fun _ s => s;
  SpinnerModel := nat;
  SpinnerTickMsg := unit;
  SpinnerCmd := unit;
  spinnerNew := O;
  spinnerUpdate := fun m _ => (S m, Some tt);
  spinnerView := fun _ => EmptyString
|}.

Definition tickingWorld : World :=
  mkWorld (fun i => Z.of_nat i * 1000000000) 0 (fun i => Z.of_nat i) 0.

(** The model built for two placeholders and the label ["Go"] in that world,
    and the world the constructor leaves. *)
Definition goWorld : World :=
  mkWorld (nowReadings tickingWorld) 1 (rndSamples tickingWorld) 8.

Definition goModel : @cyclingChars plainCollaborators :=
  @mkChars plainCollaborators 0
    [mkChar (-1) 0 0 0; mkChar (-1) 0 60000000 0;
     mkChar 32 0 120000000 540000000; mkChar 71 0 240000000 0;
     mkChar 111 0 360000000 360000000]
    [] [32; 71; 111] 0%nat false None.

(** A label that is the single rune NUL. *)
Definition nulLabel : string := String zero EmptyString.

(** * Properties *)

(** ** The monad and the slices *)

Lemma bind_Ok {A B} (m : M A) (k : A -> M B) (w w' : World) (a : A) :
  m w = Ok a w' -> bind m k w = k a w'.
Proof. intros H. unfold bind. now rewrite H. Qed.

Lemma bind_Panic {A B} (m : M A) (k : A -> M B) (w : World) (p : PanicKind) :
  m w = Panic p -> bind m k w = Panic p.
Proof. intros H. unfold bind. now rewrite H. Qed.

Lemma len_app {A} (l1 l2 : list A) : len (l1 ++ l2) = len l1 + len l2.
Proof. unfold len. rewrite length_app. lia. Qed.

Lemma len_cons {A} (x : A) (l : list A) : len (x :: l) = len l + 1.
Proof. unfold len. simpl length. lia. Qed.

Lemma len_nonneg {A} (l : list A) : 0 <= len l.
Proof. unfold len. lia. Qed.

Lemma replaceNth_app {A} (l1 : list A) (x y : A) (l2 : list A) :
  replaceNth (l1 ++ x :: l2) (length l1) y = l1 ++ y :: l2.
Proof. induction l1 as [|h t IH]; simpl; [reflexivity | now rewrite IH]. Qed.

Lemma setIndex_app {A} (l1 : list A) (x y : A) (l2 : list A) (w : World) :
  setIndex (l1 ++ x :: l2) (len l1) y w = Ok (l1 ++ y :: l2) w.
Proof.
  unfold setIndex. rewrite len_app, len_cons.
  pose proof (len_nonneg l1). pose proof (len_nonneg l2).
  replace (len l1 <? 0) with false by (symmetry; apply Z.ltb_ge; lia).
  replace (len l1 + (len l2 + 1) <=? len l1) with false
    by (symmetry; apply Z.leb_gt; lia).
  simpl. unfold ret, len. rewrite Nat2Z.id, replaceNth_app. reflexivity.
Qed.

Lemma getIndex_app {A} (l1 : list A) (x : A) (l2 : list A) (w : World) :
  getIndex (l1 ++ x :: l2) (len l1) w = Ok x w.
Proof.
  unfold getIndex. pose proof (len_nonneg l1).
  replace (len l1 <? 0) with false by (symmetry; apply Z.ltb_ge; lia).
  unfold len at 1. rewrite Nat2Z.id, nth_error_app2 by lia.
  rewrite Nat.sub_diag. reflexivity.
Qed.

Lemma getIndex_in_range {A} (l : list A) (i : Z) (w : World) :
  0 <= i < len l -> exists x, getIndex l i w = Ok x w /\ nth_error l (Z.to_nat i) = Some x.
Proof.
  intros H. unfold getIndex.
  replace (i <? 0) with false by (symmetry; apply Z.ltb_ge; lia).
  destruct (nth_error l (Z.to_nat i)) eqn:Hn.
  - eexists; split; reflexivity.
  - apply nth_error_None in Hn. unfold len in H. lia.
Qed.

(** ** The alphabet and the random glyph *)

Lemma charRunes_length : length charRunes = 38%nat.
Proof. reflexivity. Qed.

Lemma charRunes_NoDup : NoDup charRunes.
Proof.
  unfold charRunes.
  repeat (constructor; [simpl; intros H; repeat (destruct H as [H|H]; [discriminate H|]); exact H|]).
  constructor.
Qed.

Lemma randomRune_spec (w : World) :
  let k := rndSamples w (rndCount w) mod 38 in
  0 <= k < 38 /\
  exists v, nth_error charRunes (Z.to_nat k) = Some v /\
            randomRune w =
            Ok v (mkWorld (nowReadings w) (nowCount w) (rndSamples w) (S (rndCount w))).
Proof.
  intros k. assert (Hk : 0 <= k < 38) by (apply Z.mod_pos_bound; lia).
  split; [exact Hk|].
  unfold randomRune, bind, randIntn.
  change (len charRunes) with 38. change (38 <=? 0) with false. cbv iota.
  fold k.
  destruct (getIndex_in_range charRunes k
    (mkWorld (nowReadings w) (nowCount w) (rndSamples w) (S (rndCount w))))
    as [v [Hg Hn]]; [exact Hk|].
  exists v. split; [exact Hn | exact Hg].
Qed.

Lemma randomRune_member (w w' : World) (v : Z) :
  randomRune w = Ok v w' -> In v charRunes.
Proof.
  destruct (randomRune_spec w) as [_ [v' [Hn He]]].
  rewrite He. intros H; injection H as <- _.
  eapply nth_error_In; exact Hn.
Qed.

(** ** The state function *)

Lemma stateAt_initial (c : cyclingChar) (st now : Z) :
  now < st + initialDelay c -> stateAt c st now = charInitialState.
Proof.
  intros H. unfold stateAt.
  now replace (now <? st + initialDelay c) with true by (symmetry; apply Z.ltb_lt; lia).
Qed.

Lemma stateAt_endOfLife (c : cyclingChar) (st now : Z) :
  0 < finalValue c -> st + initialDelay c < now ->
  stateAt c st now = charEndOfLifeState.
Proof.
  intros Hf H. unfold stateAt.
  replace (now <? st + initialDelay c) with false by (symmetry; apply Z.ltb_ge; lia).
  replace (finalValue c >? 0) with true by (symmetry; apply Z.gtb_lt; lia).
  now replace (now >? st + initialDelay c) with true by (symmetry; apply Z.gtb_lt; lia).
Qed.

Lemma stateAt_cycling (c : cyclingChar) (st now : Z) :
  finalValue c <= 0 -> st + initialDelay c <= now ->
  stateAt c st now = charCyclingState.
Proof.
  intros Hf H. unfold stateAt.
  replace (now <? st + initialDelay c) with false by (symmetry; apply Z.ltb_ge; lia).
  now replace (finalValue c >? 0) with false
    by (symmetry; rewrite Z.gtb_ltb; apply Z.ltb_ge; lia).
Qed.

Lemma stateAt_endOfLife_inv (c : cyclingChar) (st now : Z) :
  stateAt c st now = charEndOfLifeState ->
  0 < finalValue c /\ st + initialDelay c < now.
Proof.
  unfold stateAt.
  destruct (now <? st + initialDelay c); [discriminate|].
  destruct (finalValue c >? 0) eqn:Hf; [|discriminate].
  destruct (now >? st + initialDelay c) eqn:Hn; [|discriminate].
  intros _. apply Z.gtb_lt in Hf, Hn. lia.
Qed.

Lemma charState_eqb_eq (a b : charState) : charState_eqb a b = true <-> a = b.
Proof. destruct a, b; simpl; split; congruence. Qed.

(** ** The first loop of a tick *)

Section UpdateLoops.
Context {col : Collaborators}.

Lemma setCurrentValue_app (l1 : list cyclingChar) (x : cyclingChar)
    (l2 : list cyclingChar) (v : Z) (w : World) :
  setCurrentValue (l1 ++ x :: l2) (len l1) v w =
  Ok (l1 ++ mkChar (finalValue x) v (initialDelay x) (lifetime x) :: l2) w.
Proof.
  unfold setCurrentValue.
  rewrite (bind_Ok _ _ _ _ _ (getIndex_app l1 x l2 w)).
  apply setIndex_app.
Qed.

(** One character of the first loop: the clock is read once, the glyph
    agrees with the state at that reading, and the other fields stay. *)
Lemma stepBody_spec (st : Z) (l1 : list cyclingChar) (x : cyclingChar)
    (l2 : list cyclingChar) (w : World) :
  exists v w',
    stepBody st (len l1) x (l1 ++ x :: l2) w =
    Ok (l1 ++ mkChar (finalValue x) v (initialDelay x) (lifetime x) :: l2) w' /\
    glyphOf x st (nowReadings w (nowCount w)) v /\
    nowReadings w' = nowReadings w /\ nowCount w' = S (nowCount w) /\
    rndSamples w' = rndSamples w.
Proof.
  unfold stepBody, state, bind at 1 2, timeNow, ret at 1, glyphOf.
  set (w1 := mkWorld _ _ _ _).
  destruct (stateAt x st (nowReadings w (nowCount w))).
  - eexists _, w1. split; [apply setCurrentValue_app|]. now repeat split.
  - destruct (randomRune_spec w1) as [_ [v [Hn He]]].
    eexists v, _. split.
    + rewrite (bind_Ok _ _ _ _ _ He). apply setCurrentValue_app.
    + split; [eapply nth_error_In; exact Hn | now repeat split].
  - eexists _, w1. split; [apply setCurrentValue_app|]. now repeat split.
Qed.

(** The whole loop, started anywhere in the slice. *)
Lemma stepLoop_from (st : Z) (t l1 : list cyclingChar) (w : World) :
  exists t' w',
    forRange t (len l1) (stepBody st) (l1 ++ t) w = Ok (l1 ++ t') w' /\
    nowReadings w' = nowReadings w /\
    nowCount w' = (nowCount w + length t)%nat /\
    rndSamples w' = rndSamples w /\
    length t' = length t /\
    map finalValue t' = map finalValue t /\
    map initialDelay t' = map initialDelay t /\
    forall j ch, nth_error t j = Some ch ->
      exists v, nth_error t' j =
                  Some (mkChar (finalValue ch) v (initialDelay ch) (lifetime ch)) /\
                glyphOf ch st (nowReadings w (nowCount w + j)) v.
Proof.
  revert l1 w. induction t as [|x t IH]; intros l1 w.
  - exists [], w. simpl. unfold ret. repeat split; try lia.
    intros j ch H. destruct j; discriminate.
  - destruct (stepBody_spec st l1 x t w) as (v & w1 & Hb & Hg & Hr & Hc & Hs).
    set (x' := mkChar (finalValue x) v (initialDelay x) (lifetime x)) in *.
    destruct (IH (l1 ++ [x']) w1)
      as (t' & w2 & Hl & Hr2 & Hc2 & Hs2 & Hlen & Hfv & Hid & Hnth).
    exists (x' :: t'), w2. simpl forRange.
    rewrite (bind_Ok _ _ _ _ _ Hb).
    replace (len l1 + 1) with (len (l1 ++ [x'])) by (rewrite len_app; reflexivity).
    replace (l1 ++ x' :: t) with ((l1 ++ [x']) ++ t) by (now rewrite <- app_assoc).
    rewrite Hl, <- app_assoc. simpl.
    repeat split; try congruence; try lia.
    intros [|j] ch Hj; simpl in Hj |- *.
    + injection Hj as <-. exists v. split; [reflexivity|].
      now rewrite Nat.add_0_r.
    + destruct (Hnth j ch Hj) as (v' & Hn' & Hg').
      exists v'. split; [exact Hn'|].
      rewrite Hr, Hc in Hg'. now rewrite Nat.add_succ_r.
Qed.

Lemma stepLoop_spec (st : Z) (cs : list cyclingChar) (w : World) :
  exists cs' w',
    forRange cs 0 (stepBody st) cs w = Ok cs' w' /\
    nowReadings w' = nowReadings w /\
    nowCount w' = (nowCount w + length cs)%nat /\
    rndSamples w' = rndSamples w /\
    length cs' = length cs /\
    map finalValue cs' = map finalValue cs /\
    map initialDelay cs' = map initialDelay cs /\
    forall j ch, nth_error cs j = Some ch ->
      exists v, nth_error cs' j =
                  Some (mkChar (finalValue ch) v (initialDelay ch) (lifetime ch)) /\
                glyphOf ch st (nowReadings w (nowCount w + j)) v.
Proof. exact (stepLoop_from st cs [] w). Qed.

End UpdateLoops.

(** ** The second loop of a tick *)

Section CountLoop.
Context {col : Collaborators}.

Lemma skipNow_0 (w : World) : skipNow 0 w = w.
Proof. destruct w; unfold skipNow; simpl. now rewrite Nat.add_0_r. Qed.

Lemma countLoop_spec (st : Z) (cs : list cyclingChar) (i e : Z) (w : World) :
  forRange cs i (countBody st) e w =
  Ok (e + countEol st (nowReadings w) (nowCount w) cs) (skipNow (length cs) w).
Proof.
  revert i e w. induction cs as [|ch t IH]; intros i e w.
  - simpl. unfold ret. now rewrite skipNow_0, Z.add_0_r.
  - simpl forRange. unfold bind at 1, countBody, state, bind, timeNow, ret.
    rewrite IH. simpl. unfold skipNow; simpl.
    f_equal; [|f_equal; lia].
    destruct (charState_eqb _ _); lia.
Qed.

Lemma countEol_app (st : Z) (rd : nat -> Z) (a b : list cyclingChar) (k : nat) :
  countEol st rd k (a ++ b) =
  countEol st rd k a + countEol st rd (k + length a) b.
Proof.
  revert k. induction a as [|x a IH]; intros k; simpl.
  - now rewrite Nat.add_0_r.
  - rewrite IH. replace (S k + length a)%nat with (k + S (length a))%nat by lia. lia.
Qed.

Lemma countEol_timing (st : Z) (rd : nat -> Z) (a b : list cyclingChar) (k : nat) :
  map finalValue a = map finalValue b ->
  map initialDelay a = map initialDelay b ->
  countEol st rd k a = countEol st rd k b.
Proof.
  revert b k. induction a as [|x a IH]; intros [|y b] k Hf Hd; try discriminate;
    [reflexivity|].
  simpl in Hf, Hd. injection Hf as Hf1 Hf2. injection Hd as Hd1 Hd2.
  simpl. rewrite (IH b (S k) Hf2 Hd2). unfold stateAt. now rewrite Hf1, Hd1.
Qed.

(** A character carrying the sentinel is in no reading at end of life. *)
Lemma stateAt_sentinel (ch : cyclingChar) (st now : Z) :
  finalValue ch = -1 -> stateAt ch st now <> charEndOfLifeState.
Proof.
  intros Hf H. apply stateAt_endOfLife_inv in H. lia.
Qed.

Lemma countEol_sentinels (st : Z) (rd : nat -> Z) (cs : list cyclingChar) (k : nat) :
  Forall (fun ch => finalValue ch = -1) cs -> countEol st rd k cs = 0.
Proof.
  intros H. revert k. induction H as [|x cs Hx _ IH]; intros k; simpl; [reflexivity|].
  rewrite IH.
  destruct (charState_eqb _ _) eqn:E; [|reflexivity].
  apply charState_eqb_eq in E. now apply stateAt_sentinel in E.
Qed.

Lemma countEol_bounds (st : Z) (rd : nat -> Z) (cs : list cyclingChar) (k : nat) :
  0 <= countEol st rd k cs <= len cs.
Proof.
  revert k. induction cs as [|x cs IH]; intros k; cbn [countEol].
  - unfold len; simpl; lia.
  - rewrite len_cons. specialize (IH (S k)).
    destruct (charState_eqb _ _); lia.
Qed.

Lemma countEol_full (st : Z) (rd : nat -> Z) (cs : list cyclingChar) (k : nat) :
  countEol st rd k cs = len cs <-> allEol st rd k cs = true.
Proof.
  revert k. induction cs as [|x cs IH]; intros k; cbn [countEol allEol].
  - unfold len; simpl; tauto.
  - rewrite len_cons. pose proof (countEol_bounds st rd cs (S k)).
    specialize (IH (S k)).
    destruct (charState_eqb _ _); cbn [andb].
    + rewrite <- IH. split; intros; lia.
    + split; [intros; lia | discriminate].
Qed.

(** ** Well-formed models *)

Lemma wellFormed_placeholders (c : cyclingChars) :
  wellFormed c -> Forall (fun ch => finalValue ch = -1) (placeholders c).
Proof.
  intros H. unfold placeholders.
  set (n := (length (chars c) - length (label c))%nat).
  assert (Hm : map finalValue (firstn n (chars c)) = repeat (-1) n).
  { rewrite <- firstn_map, H. fold n.
    rewrite firstn_app, repeat_length, Nat.sub_diag. simpl.
    rewrite app_nil_r. apply firstn_all2. rewrite repeat_length. lia. }
  apply Forall_forall. intros ch Hin.
  apply (in_map finalValue) in Hin. rewrite Hm in Hin.
  now apply repeat_spec in Hin.
Qed.

Lemma wellFormed_labelChars (c : cyclingChars) :
  wellFormed c -> map finalValue (labelChars c) = label c.
Proof.
  intros H. unfold labelChars.
  set (n := (length (chars c) - length (label c))%nat).
  rewrite <- skipn_map, H. fold n.
  rewrite skipn_app, repeat_length, Nat.sub_diag. simpl.
  rewrite skipn_all2 by (rewrite repeat_length; lia). reflexivity.
Qed.

Lemma labelChars_length (c : cyclingChars) :
  wellFormed c -> length (labelChars c) = length (label c).
Proof.
  intros H. rewrite <- (wellFormed_labelChars c H). now rewrite length_map.
Qed.

(** The count of the second loop is the count over the label characters,
    and it reaches [len(c.label)] exactly when the label is resolved. *)
Lemma countEol_label (c : cyclingChars) (rd : nat -> Z) (k : nat) :
  wellFormed c ->
  countEol (start c) rd k (chars c) =
  countEol (start c) rd (k + length (placeholders c)) (labelChars c).
Proof.
  intros H.
  rewrite <- (firstn_skipn (length (chars c) - length (label c)) (chars c)) at 1.
  fold (placeholders c) (labelChars c).
  rewrite countEol_app, countEol_sentinels by (now apply wellFormed_placeholders).
  reflexivity.
Qed.

Lemma countEol_resolved (c : cyclingChars) (w : World) :
  wellFormed c ->
  (countEol (start c) (nowReadings w) (nowCount w + length (chars c)) (chars c)
   =? len (label c)) = labelResolved c w.
Proof.
  intros H. rewrite countEol_label by exact H.
  unfold labelResolved.
  replace (len (label c)) with (len (labelChars c))
    by (unfold len; now rewrite labelChars_length).
  destruct (allEol _ _ _ _) eqn:E.
  - apply Z.eqb_eq, countEol_full, E.
  - apply Z.eqb_neq. intros Hc. apply countEol_full in Hc. congruence.
Qed.

End CountLoop.

(** ** One application of [Update] *)

Section UpdateSpec.
Context {col : Collaborators}.

(** A tick on a well-formed model: it returns, keeps the timing data of
    every character, gives each the glyph of its state, and starts the
    ellipsis exactly when it was not started and the label is resolved. *)
Lemma Update_tick (c : cyclingChars) (w : World) :
  wellFormed c ->
  exists c' w',
    Update c stepCharsMsg w =
    Ok (c', stepCharsCmd ::
            (if negb (ellipsisStarted c) && labelResolved c w
             then [ellipsisStartCmd] else [])) w' /\
    nowReadings w' = nowReadings w /\ rndSamples w' = rndSamples w /\
    start c' = start c /\ label c' = label c /\
    length (chars c') = length (chars c) /\
    map finalValue (chars c') = map finalValue (chars c) /\
    map initialDelay (chars c') = map initialDelay (chars c) /\
    ellipsisStarted c' = ellipsisStarted c || labelResolved c w /\
    forall j ch, nth_error (chars c) j = Some ch ->
      exists v, nth_error (chars c') j =
                  Some (mkChar (finalValue ch) v (initialDelay ch) (lifetime ch)) /\
                glyphOf ch (start c) (nowReadings w (nowCount w + j)) v.
Proof.
  intros Hwf.
  destruct (stepLoop_spec (start c) (chars c) w)
    as (cs' & w1 & Hl & Hr & Hc & Hs & Hlen & Hfv & Hid & Hnth).
  unfold Update. rewrite (bind_Ok _ _ _ _ _ Hl).
  cbn [ellipsisStarted withChars chars start label].
  destruct (ellipsisStarted c) eqn:Hes; cbn [negb andb orb].
  - exists (withChars c cs'), w1. unfold ret, batch. simpl.
    repeat split; auto.
  - unfold bind. rewrite countLoop_spec, Z.add_0_l, Hr, Hc.
    rewrite (countEol_timing _ _ cs' (chars c)) by assumption.
    rewrite (countEol_resolved c w Hwf).
    destruct (labelResolved c w).
    + exists (withEllipsisStarted (withChars c cs') true), (skipNow (length cs') w1).
      unfold ret, batch. simpl. repeat split; auto.
    + exists (withChars c cs'), (skipNow (length cs') w1).
      unfold ret, batch. simpl. repeat split; auto.
Qed.

Lemma wellFormed_timing (c c' : cyclingChars) :
  label c' = label c -> length (chars c') = length (chars c) ->
  map finalValue (chars c') = map finalValue (chars c) ->
  wellFormed c -> wellFormed c'.
Proof. unfold wellFormed. intros -> -> ->. auto. Qed.

(** Any message on a well-formed model. *)
Lemma Update_spec (c : cyclingChars) (m : Msg) (w : World) :
  wellFormed c ->
  exists c' cmds w',
    Update c m w = Ok (c', cmds) w' /\
    wellFormed c' /\
    (ellipsisStarted c' = true <->
     ellipsisStarted c = true \/ (m = stepCharsMsg /\ labelResolved c w = true)) /\
    (In ellipsisStartCmd cmds <->
     ellipsisStarted c = false /\ m = stepCharsMsg /\ labelResolved c w = true).
Proof.
  intros Hwf. destruct m as [|t|].
  - destruct (Update_tick c w Hwf)
      as (c' & w' & Hu & _ & _ & _ & Hlb & Hlen & Hfv & _ & Hes & _).
    eexists c', _, w'. split; [exact Hu|].
    split; [now apply (wellFormed_timing c c')|].
    rewrite Hes. destruct (ellipsisStarted c), (labelResolved c w); simpl;
      intuition congruence.
  - unfold Update. destruct (spinnerUpdate (ellipsis c) t) as [e cmd].
    eexists _, _, w. split; [reflexivity|].
    split; [exact Hwf|]. cbn [ellipsisStarted withEllipsis]. split.
    + intuition congruence.
    + split; [|intros (_ & H & _); discriminate].
      destruct cmd; simpl; intros H; [destruct H as [H|[]]; discriminate | destruct H].
  - eexists c, [], w. split; [reflexivity|].
    split; [exact Hwf|]. split.
    + intuition congruence.
    + split; [intros [] | intros (_ & H & _); discriminate].
Qed.

(** ** Runs *)

Lemma trace_step (msgs : list Msg) (c : cyclingChars) (w : World) (k : nat) (s : Step) :
  nth_error (trace msgs c w) k = Some s ->
  exists w', Update (pre s) (stepMsg s) (preWorld s) = Ok (post s, stepCmds s) w'.
Proof.
  revert c w k. induction msgs as [|m ms IH]; intros c w k H.
  - destruct k; discriminate.
  - simpl in H. destruct (Update c m w) as [[c' cmds] w'|] eqn:Hu.
    + destruct k as [|k]; simpl in H.
      * injection H as <-. simpl. now exists w'.
      * eapply IH; exact H.
    + destruct k; discriminate.
Qed.

(** Along a run from a well-formed model no step panics, every model stays
    well-formed, and the flag is set before a step exactly when it was set at
    the beginning or an earlier step resolved the label. *)
Lemma trace_flag (msgs : list Msg) (c : cyclingChars) (w : World) :
  wellFormed c ->
  length (trace msgs c w) = length msgs /\
  forall k s, nth_error (trace msgs c w) k = Some s ->
    wellFormed (pre s) /\
    (ellipsisStarted (pre s) = true <->
     ellipsisStarted c = true \/
     exists j sj, (j < k)%nat /\ nth_error (trace msgs c w) j = Some sj /\
                  resolvesAt sj).
Proof.
  revert c w. induction msgs as [|m ms IH]; intros c w Hwf.
  - split; [reflexivity|]. intros k s H. destruct k; discriminate.
  - destruct (Update_spec c m w Hwf) as (c' & cmds & w' & Hu & Hwf' & Hes & _).
    destruct (IH c' w' Hwf') as [Hlen Hsteps].
    simpl. rewrite Hu. simpl. split; [now rewrite Hlen|].
    intros [|k] s H; simpl in H.
    + injection H as <-. simpl. split; [exact Hwf|].
      split; [auto|]. intros [H|(j & sj & Hj & _)]; [exact H | lia].
    + destruct (Hsteps k s H) as [Hw Hflag]. split; [exact Hw|].
      rewrite Hflag, Hes. split.
      * intros [[H1|H1]|(j & sj & Hj & Hn & Hr)].
        -- now left.
        -- right. exists 0%nat, (mkStep c w m c' cmds).
           split; [lia|]. split; [reflexivity | exact H1].
        -- right. exists (S j), sj. split; [lia|]. split; [exact Hn | exact Hr].
      * intros [H1|(j & sj & Hj & Hn & Hr)]; [now left; left|].
        destruct j as [|j]; simpl in Hn.
        -- injection Hn as <-. left; right. exact Hr.
        -- right. exists j, sj. split; [lia|]. split; [exact Hn | exact Hr].
Qed.

End UpdateSpec.

(** ** Loops that fill a slice *)

Lemma fillRange {A B} (f : A -> B) (t : list A) (t0 pre : list B) (w : World) :
  length t0 = length t ->
  forRange t (len pre) (fun i x r => setIndex r i (f x)) (pre ++ t0) w =
  Ok (pre ++ map f t) w.
Proof.
  revert t0 pre. induction t as [|x t IH]; intros [|y t0] pre H; try discriminate.
  - reflexivity.
  - simpl. rewrite (bind_Ok _ _ _ _ _ (setIndex_app pre y (f x) t0 w)).
    replace (len pre + 1) with (len (pre ++ [f x])) by (rewrite len_app; reflexivity).
    replace (pre ++ f x :: t0) with ((pre ++ [f x]) ++ t0) by (now rewrite <- app_assoc).
    rewrite IH by (simpl in H; lia). now rewrite <- app_assoc.
Qed.

Lemma fillUpTo {A} (g : Z -> A) (z : A) (k : nat) (pre : list A) (w : World) :
  forUpTo k (len pre) (fun i c => setIndex c i (g i)) (pre ++ repeat z k) w =
  Ok (pre ++ map g (indices (len pre) k)) w.
Proof.
  revert pre. induction k as [|k IH]; intros pre.
  - reflexivity.
  - simpl. rewrite (bind_Ok _ _ _ _ _ (setIndex_app pre z (g (len pre)) (repeat z k) w)).
    replace (len pre + 1) with (len (pre ++ [g (len pre)]))
      by (rewrite len_app; reflexivity).
    replace (pre ++ g (len pre) :: repeat z k)
      with ((pre ++ [g (len pre)]) ++ repeat z k) by (now rewrite <- app_assoc).
    rewrite IH, <- app_assoc. reflexivity.
Qed.

Lemma indices_length (i : Z) (k : nat) : length (indices i k) = k.
Proof. revert i. induction k; intros i; simpl; [reflexivity | now rewrite IHk]. Qed.

Lemma indices_nth (i : Z) (k j : nat) :
  (j < k)%nat -> nth_error (indices i k) j = Some (i + Z.of_nat j).
Proof.
  revert i j. induction k as [|k IH]; intros i j H; [lia|].
  destruct j as [|j]; simpl.
  - now rewrite Z.add_0_r.
  - rewrite IH by lia. f_equal. lia.
Qed.

(** ** The gradient *)

Section Gradient.
Context {col : Collaborators}.

(** The ramp of a length that is not negative: it reads neither the clock
    nor the random source, and is the list of the steps [0 .. length - 1]. *)
Lemma makeGradientRamp_spec (length : Z) (w : World) :
  0 <= length ->
  makeGradientRamp length w =
  Ok (map (rampStep length) (indices 0 (Z.to_nat length))) w.
Proof.
  intros H. unfold makeGradientRamp, make.
  replace (length <? 0) with false by (symmetry; apply Z.ltb_ge; lia).
  unfold bind at 1, ret at 1.
  exact (fillUpTo (rampStep length) EmptyString (Z.to_nat length) [] w).
Qed.

Lemma makeGradientRamp_negative (length : Z) (w : World) :
  length < 0 -> makeGradientRamp length w = Panic MakesliceLenOutOfRange.
Proof.
  intros H. unfold makeGradientRamp, make.
  now replace (length <? 0) with true by (symmetry; apply Z.ltb_lt; lia).
Qed.

End Gradient.

(** ** The constructor *)

Section Constructor.
Context {col : Collaborators}.

Lemma makeDelay_spec (a b : Z) (w : World) :
  0 < a ->
  makeDelay a b w =
  Ok (rndSamples w (rndCount w) mod a * (millisecond * b))
     (mkWorld (nowReadings w) (nowCount w) (rndSamples w) (S (rndCount w))).
Proof.
  intros H. unfold makeDelay, randInt31n, randIntn, bind, ret.
  now replace (a <=? 0) with false by (symmetry; apply Z.leb_gt; lia).
Qed.

Lemma makeInitialDelay_spec (w : World) :
  makeInitialDelay w =
  Ok (rndSamples w (rndCount w) mod 8 * (millisecond * 60))
     (mkWorld (nowReadings w) (nowCount w) (rndSamples w) (S (rndCount w))).
Proof. unfold makeInitialDelay. apply makeDelay_spec. lia. Qed.

Lemma placeholderLoop (k : nat) (pre rest : list cyclingChar) (w : World) :
  exists ph w',
    forUpTo k (len pre)
      (fun i cs => d <- makeInitialDelay ;; setIndex cs i (mkChar (-1) 0 d 0))
      (pre ++ repeat zeroChar k ++ rest) w = Ok (pre ++ ph ++ rest) w' /\
    length ph = k /\ Forall isPlaceholder ph /\
    nowReadings w' = nowReadings w /\ nowCount w' = nowCount w /\
    rndSamples w' = rndSamples w.
Proof.
  revert pre w. induction k as [|k IH]; intros pre w.
  - exists [], w. simpl. unfold ret. repeat split; auto.
  - set (d := rndSamples w (rndCount w) mod 8 * (millisecond * 60)).
    set (x := mkChar (-1) 0 d 0).
    set (w1 := mkWorld (nowReadings w) (nowCount w) (rndSamples w) (S (rndCount w))).
    destruct (IH (pre ++ [x]) w1) as (ph & w2 & Hl & Hlen & Hall & Hr & Hc & Hs).
    exists (x :: ph), w2. cbn [forUpTo repeat app].
    assert (Hb : (d <- makeInitialDelay ;;
                  setIndex (pre ++ zeroChar :: repeat zeroChar k ++ rest)
                           (len pre) (mkChar (-1) 0 d 0)) w
                 = Ok (pre ++ x :: repeat zeroChar k ++ rest) w1).
    { rewrite (bind_Ok _ _ _ _ _ (makeInitialDelay_spec w)). apply setIndex_app. }
    rewrite (bind_Ok _ _ _ _ _ Hb).
    replace (len pre + 1) with (len (pre ++ [x])) by (rewrite len_app; reflexivity).
    replace (pre ++ x :: repeat zeroChar k ++ rest)
      with ((pre ++ [x]) ++ repeat zeroChar k ++ rest) by (now rewrite <- app_assoc).
    rewrite Hl, <- app_assoc. simpl.
    repeat split; auto.
    constructor; [|exact Hall].
    repeat split. exists (rndSamples w (rndCount w) mod 8).
    split; [apply Z.mod_pos_bound; lia | unfold x, d; simpl; lia].
Qed.

Lemma labelLoop (n : Z) (t : list Z) (t0 pre : list cyclingChar) (i : Z) (w : World) :
  len pre = i + n -> length t0 = length t ->
  exists lab w',
    forRange t i
      (fun i r cs =>
         d <- makeInitialDelay ;;
         l <- makeDelay 5 180 ;;
         setIndex cs (i + n) (mkChar r 0 d l))
      (pre ++ t0) w = Ok (pre ++ lab) w' /\
    map finalValue lab = t /\
    nowReadings w' = nowReadings w /\ nowCount w' = nowCount w /\
    rndSamples w' = rndSamples w.
Proof.
  revert t0 pre i w. induction t as [|r t IH]; intros [|y t0] pre i w Hi H;
    try discriminate.
  - exists [], w. simpl. unfold ret. repeat split; auto.
  - set (d := rndSamples w (rndCount w) mod 8 * (millisecond * 60)).
    set (w1 := mkWorld (nowReadings w) (nowCount w) (rndSamples w) (S (rndCount w))).
    set (l := rndSamples w1 (rndCount w1) mod 5 * (millisecond * 180)).
    set (w2 := mkWorld (nowReadings w1) (nowCount w1) (rndSamples w1) (S (rndCount w1))).
    set (x := mkChar r 0 d l).
    destruct (IH t0 (pre ++ [x]) (i + 1) w2) as (lab & w3 & Hl & Hm & Hr & Hc & Hs).
    { rewrite len_app. change (len [x]) with 1. lia. }
    { simpl in H. lia. }
    exists (x :: lab), w3. cbn [forRange].
    assert (Hb : (d <- makeInitialDelay ;;
                  l <- makeDelay 5 180 ;;
                  setIndex (pre ++ y :: t0) (i + n) (mkChar r 0 d l)) w
                 = Ok (pre ++ x :: t0) w2).
    { rewrite (bind_Ok _ _ _ _ _ (makeInitialDelay_spec w)).
      rewrite (bind_Ok _ _ _ _ _ (makeDelay_spec 5 180 w1 ltac:(lia))).
      rewrite <- Hi. apply setIndex_app. }
    rewrite (bind_Ok _ _ _ _ _ Hb).
    replace (pre ++ x :: t0) with ((pre ++ [x]) ++ t0) by (now rewrite <- app_assoc).
    rewrite Hl, <- app_assoc. simpl. rewrite Hm.
    repeat split; auto.
Qed.

Lemma make_Ok {A} (z : A) (n : Z) (w : World) :
  0 <= n -> make z n w = Ok (repeat z (Z.to_nat n)) w.
Proof.
  intros H. unfold make.
  now replace (n <? 0) with false by (symmetry; apply Z.ltb_ge; lia).
Qed.

Lemma rampPart_spec (n : Z) (trueColor : bool) (w : World) :
  0 <= n ->
  (if (n >=? 3) && trueColor then
     r0 <- make zeroStyle n ;;
     colors <- makeGradientRamp n ;;
     forRange colors 0
       (fun i color r => setIndex r i (foreground newStyle color)) r0
   else ret []) w = Ok (rampOf n trueColor) w.
Proof.
  intros H. unfold rampOf. destruct ((n >=? 3) && trueColor); [|reflexivity].
  rewrite (bind_Ok _ _ _ _ _ (make_Ok zeroStyle n w H)).
  rewrite (bind_Ok _ _ _ _ _ (makeGradientRamp_spec n w H)).
  apply (fillRange (foreground newStyle) _ _ []).
  now rewrite repeat_length, length_map, indices_length.
Qed.

(** When the clamped size is not negative the constructor returns: the
    characters are the placeholders followed by one character per rune of the
    label, and only the start time was read from the clock. *)
Lemma newCyclingChars_returns (u : Z) (lbl : string) (trueColor : bool)
    (s : Style) (w : World) :
  0 <= clampedSize u ->
  exists ph lab w',
    newCyclingChars u lbl trueColor s w =
    Ok (mkChars (nowReadings w (nowCount w)) (ph ++ lab)
                (rampOf (clampedSize u) trueColor)
                (labelOf (clampedSize u) lbl) spinnerNew false s) w' /\
    len ph = clampedSize u /\ Forall isPlaceholder ph /\
    map finalValue lab = labelOf (clampedSize u) lbl /\
    nowReadings w' = nowReadings w /\ nowCount w' = S (nowCount w) /\
    rndSamples w' = rndSamples w.
Proof.
  intros Hn. unfold newCyclingChars. fold (labelOf (clampedSize u) lbl).
  set (n := clampedSize u) in *. set (L := labelOf n lbl).
  set (w1 := mkWorld (nowReadings w) (S (nowCount w)) (rndSamples w) (rndCount w)).
  rewrite (bind_Ok _ _ w w1 (nowReadings w (nowCount w)) eq_refl).
  rewrite (bind_Ok _ _ _ _ _ (rampPart_spec n trueColor w1 Hn)).
  pose proof (len_nonneg L) as HL.
  rewrite (bind_Ok _ _ _ _ _ (make_Ok zeroChar (n + len L) w1 ltac:(lia))).
  replace (Z.to_nat (n + len L)) with (Z.to_nat n + length L)%nat
    by (unfold len; lia).
  rewrite repeat_app.
  destruct (placeholderLoop (Z.to_nat n) [] (repeat zeroChar (length L)) w1)
    as (ph & w2 & Hl1 & Hlen & Hall & Hr2 & Hc2 & Hs2).
  change (len (@nil cyclingChar)) with 0 in Hl1. cbn [app] in Hl1.
  rewrite (bind_Ok _ _ _ _ _ Hl1).
  destruct (labelLoop n L (repeat zeroChar (length L)) ph 0 w2)
    as (lab & w3 & Hl2 & Hm & Hr3 & Hc3 & Hs3).
  { unfold len. rewrite Hlen. lia. }
  { apply repeat_length. }
  rewrite (bind_Ok _ _ _ _ _ Hl2).
  exists ph, lab, w3. unfold ret. split; [reflexivity|].
  split; [unfold len; rewrite Hlen; lia|].
  split; [exact Hall|]. split; [exact Hm|].
  rewrite Hr3, Hr2, Hc3, Hc2, Hs3, Hs2. now repeat split.
Qed.

(** The separator is the first rune of the label it is put before. *)
Lemma runesOf_separator (lbl : string) :
  runesOf (" " ++ lbl) = 32 :: runesOf lbl.
Proof. reflexivity. Qed.

Lemma labelOf_nonzero (n : Z) (lbl : string) :
  n <> 0 -> labelOf n lbl = 32 :: runesOf lbl.
Proof.
  intros H. unfold labelOf.
  replace (n =? 0) with false by (symmetry; now apply Z.eqb_neq).
  apply runesOf_separator.
Qed.

Lemma labelOf_zero (lbl : string) : labelOf 0 lbl = runesOf lbl.
Proof. reflexivity. Qed.

(** When the clamped size is negative the constructor panics: either the
    slice cannot be made, or the first label character is written before the
    slice begins. *)
Lemma newCyclingChars_panics (u : Z) (lbl : string) (trueColor : bool)
    (s : Style) (w : World) :
  clampedSize u < 0 ->
  newCyclingChars u lbl trueColor s w =
  Panic (if clampedSize u + len (labelOf (clampedSize u) lbl) <? 0
         then MakesliceLenOutOfRange
         else IndexOutOfRange (clampedSize u)
                (clampedSize u + len (labelOf (clampedSize u) lbl))).
Proof.
  intros Hn. unfold newCyclingChars. fold (labelOf (clampedSize u) lbl).
  set (n := clampedSize u) in *.
  set (w1 := mkWorld (nowReadings w) (S (nowCount w)) (rndSamples w) (rndCount w)).
  rewrite (bind_Ok _ _ w w1 (nowReadings w (nowCount w)) eq_refl).
  replace (n >=? 3) with false by (symmetry; rewrite Z.geb_leb; apply Z.leb_gt; lia).
  cbn [andb]. rewrite (bind_Ok _ _ w1 w1 [] eq_refl).
  rewrite (labelOf_nonzero n lbl) by lia.
  set (L := 32 :: runesOf lbl).
  unfold make at 1. destruct (n + len L <? 0) eqn:Hneg; [reflexivity|].
  apply Z.ltb_ge in Hneg.
  rewrite (bind_Ok _ _ w1 w1 (repeat zeroChar (Z.to_nat (n + len L))) eq_refl).
  replace (Z.to_nat n) with 0%nat by lia. cbn [forUpTo].
  rewrite (bind_Ok _ _ w1 w1 (repeat zeroChar (Z.to_nat (n + len L))) eq_refl).
  unfold L at 1. cbn [forRange].
  apply bind_Panic, bind_Panic.
  rewrite (bind_Ok _ _ _ _ _ (makeInitialDelay_spec w1)).
  rewrite (bind_Ok _ _ _ _ _ (makeDelay_spec 5 180 _ ltac:(lia))).
  unfold setIndex.
  replace (0 + n <? 0) with true by (symmetry; apply Z.ltb_lt; lia).
  cbn [orb]. unfold panic. f_equal. f_equal.
  unfold len at 1. rewrite repeat_length. lia.
Qed.

(** Whatever the constructor returns is well-formed and has not started the
    ellipsis. *)
Lemma newCyclingChars_wellFormed (u : Z) (lbl : string) (trueColor : bool)
    (s : Style) (w w' : World) (c : cyclingChars) :
  newCyclingChars u lbl trueColor s w = Ok c w' ->
  0 <= clampedSize u /\ wellFormed c /\ ellipsisStarted c = false /\
  label c = labelOf (clampedSize u) lbl /\
  len (chars c) = clampedSize u + len (label c) /\
  len (placeholders c) = clampedSize u /\
  Forall isPlaceholder (placeholders c) /\
  start c = nowReadings w (nowCount w).
Proof.
  intros H. destruct (Z.lt_ge_cases (clampedSize u) 0) as [Hn|Hn].
  { rewrite newCyclingChars_panics in H by exact Hn. discriminate. }
  destruct (newCyclingChars_returns u lbl trueColor s w Hn)
    as (ph & lab & w2 & He & Hph & Hall & Hm & _).
  rewrite He in H. injection H as <- _.
  assert (Hlab : length lab = length (labelOf (clampedSize u) lbl))
    by (rewrite <- Hm; now rewrite length_map).
  assert (Hsub : (length (ph ++ lab) - length (labelOf (clampedSize u) lbl))%nat
                 = length ph) by (rewrite length_app; lia).
  split; [exact Hn|]. unfold wellFormed, placeholders. cbn [chars label ellipsisStarted start].
  rewrite Hsub, firstn_app, Nat.sub_diag, firstn_all, firstn_O, app_nil_r.
  split.
  { rewrite map_app, Hm. f_equal.
    clear -Hall. induction Hall as [|x l Hx _ IH]; simpl; [reflexivity|].
    destruct Hx as [-> _]. now rewrite IH. }
  split; [reflexivity|]. split; [reflexivity|].
  split; [rewrite len_app; unfold len in *; lia|].
  split; [exact Hph|]. split; [exact Hall | reflexivity].
Qed.

End Constructor.

(** * The claims *)

(** ** The random glyph *)

Lemma randomRune_drawable (v : Z) :
  In v charRunes <-> exists w w', randomRune w = Ok v w'.
Proof.
  split.
  - intros H. apply In_nth_error in H. destruct H as [n Hn].
    assert (Hlt : (n < 38)%nat)
      by (rewrite <- charRunes_length; apply nth_error_Some; congruence).
    set (w := mkWorld (fun _ => 0) 0 (fun _ => Z.of_nat n) 0).
    destruct (randomRune_spec w) as [_ [v' [Hn' He]]].
    simpl in Hn'. rewrite Z.mod_small, Nat2Z.id in Hn' by lia.
    assert (v' = v) as -> by congruence.
    exists w. eexists. exact He.
  - intros (w & w' & H). eapply randomRune_member; exact H.
Qed.

(** C1, as the spec words it, does not hold: the glyphs [randomRune] can
    return do not form an alphabet of 40 characters. *)
Lemma random_alphabet_not_forty :
  ~ exists A : list Z,
      length A = 40%nat /\ NoDup A /\
      forall v, In v A <-> exists w w', randomRune w = Ok v w'.
Proof.
  intros (A & Hlen & Hnd & Hin).
  assert (Hp : Permutation A charRunes).
  { apply NoDup_Permutation; [exact Hnd | exact charRunes_NoDup|].
    intros v. rewrite Hin. symmetry. apply randomRune_drawable. }
  apply Permutation_length in Hp. rewrite Hlen, charRunes_length in Hp. discriminate.
Qed.

Section Claims.
Context {col : Collaborators}.

(** A tick returns on every model, well-formed or not, and gives every
    character the glyph of its state at the reading taken for it. *)
Lemma Update_tick_glyphs (c : cyclingChars) (w : World) :
  exists c' cmds w',
    Update c stepCharsMsg w = Ok (c', cmds) w' /\
    forall j ch, nth_error (chars c) j = Some ch ->
      exists v, nth_error (chars c') j =
                  Some (mkChar (finalValue ch) v (initialDelay ch) (lifetime ch)) /\
                glyphOf ch (start c) (nowReadings w (nowCount w + j)) v.
Proof.
  destruct (stepLoop_spec (start c) (chars c) w)
    as (cs' & w1 & Hl & _ & _ & _ & _ & _ & _ & Hnth).
  unfold Update. rewrite (bind_Ok _ _ _ _ _ Hl).
  cbn [ellipsisStarted withChars chars start label].
  destruct (ellipsisStarted c); cbn [negb].
  - eexists _, _, _. split; [reflexivity | exact Hnth].
  - unfold bind. rewrite countLoop_spec.
    destruct (_ =? _); eexists _, _, _; (split; [reflexivity | exact Hnth]).
Qed.

(** C1 (amended): the alphabet has 38 runes, all different. A draw picks the
    rune at the index given by the random sample reduced modulo 38, so every
    draw is a member of the alphabet and every member is the glyph of exactly
    one of the 38 indices: a uniform index is a uniform glyph. On a tick
    taken once the initial delay has elapsed, a character whose final value
    is the cycle-forever sentinel (negative) is given a member of the
    alphabet. *)
Theorem random_glyph_uniform_over_alphabet :
  length charRunes = 38%nat /\ NoDup charRunes /\
  (forall w, exists v w',
      randomRune w = Ok v w' /\
      nth_error charRunes (Z.to_nat (rndSamples w (rndCount w) mod 38)) = Some v /\
      In v charRunes) /\
  (forall v, In v charRunes ->
      exists k, (0 <= k < 38 /\ nth_error charRunes (Z.to_nat k) = Some v) /\
                forall k', 0 <= k' < 38 /\ nth_error charRunes (Z.to_nat k') = Some v ->
                           k' = k) /\
  (forall (c : cyclingChars) (w : World) (j : nat) (ch : cyclingChar),
      monotonic w ->
      nth_error (chars c) j = Some ch ->
      finalValue ch < 0 ->
      start c + initialDelay ch <= nowReadings w (nowCount w) ->
      exists c' cmds w' ch',
        Update c stepCharsMsg w = Ok (c', cmds) w' /\
        nth_error (chars c') j = Some ch' /\
        In (currentValue ch') charRunes).
Proof.
  split; [exact charRunes_length|]. split; [exact charRunes_NoDup|].
  split; [|split].
  - intros w. destruct (randomRune_spec w) as [_ [v [Hn He]]].
    exists v. eexists. split; [exact He|]. split; [exact Hn|].
    eapply nth_error_In; exact Hn.
  - intros v H. apply In_nth_error in H. destruct H as [n Hn].
    assert (Hlt : (n < 38)%nat)
      by (rewrite <- charRunes_length; apply nth_error_Some; congruence).
    exists (Z.of_nat n). rewrite Nat2Z.id. split; [split; [lia | exact Hn]|].
    intros k' [Hk' Hn'].
    assert (Heq : Z.to_nat k' = n).
    { apply (proj1 (NoDup_nth_error charRunes) charRunes_NoDup).
      - rewrite charRunes_length. lia.
      - congruence. }
    lia.
  - intros c w j ch Hmono Hj Hfv Hel.
    destruct (Update_tick_glyphs c w) as (c' & cmds & w' & Hu & Hg).
    destruct (Hg j ch Hj) as (v & Hn & Hv).
    exists c', cmds, w'. eexists. split; [exact Hu|]. split; [exact Hn|].
    unfold glyphOf in Hv. rewrite stateAt_cycling in Hv; [exact Hv | lia |].
    specialize (Hmono (nowCount w) (nowCount w + j)%nat ltac:(lia)). lia.
Qed.

(** ** The state function *)

(** The lifetime of a character never enters its state. *)
Lemma stateAt_lifetime (f cv cv' d l l' st now : Z) :
  stateAt (mkChar f cv d l) st now = stateAt (mkChar f cv' d l') st now.
Proof. reflexivity. Qed.

(** With a positive final value the state is initial before the delay has
    elapsed and end of life after it, whatever the lifetime. *)
Lemma state_positive_final_value (ch : cyclingChar) (st : Z) (w : World) :
  0 < finalValue ch ->
  exists w',
    (nowReadings w (nowCount w) < st + initialDelay ch ->
     state ch st w = Ok charInitialState w') /\
    (st + initialDelay ch < nowReadings w (nowCount w) ->
     state ch st w = Ok charEndOfLifeState w').
Proof.
  intros Hf. eexists. unfold state, bind, timeNow, ret. split; intros H.
  - rewrite stateAt_initial by exact H. reflexivity.
  - rewrite stateAt_endOfLife by assumption. reflexivity.
Qed.

(** C2 fails on the code for the final value 0, the rune NUL, which is a
    value the comment on [finalValue] counts as present (only a negative one
    cycles forever): [state] tests [finalValue > 0], so this character is
    initial before its delay has elapsed and cycling ever after, never at end
    of life. *)
Theorem state_nul_final_value_cycles (cv d l st : Z) (w : World) :
  state (mkChar 0 cv d l) st w =
  Ok (if nowReadings w (nowCount w) <? st + d
      then charInitialState else charCyclingState)
     (mkWorld (nowReadings w) (S (nowCount w)) (rndSamples w) (rndCount w)).
Proof.
  unfold state, bind, timeNow, ret, stateAt. simpl.
  now destruct (nowReadings w (nowCount w) <? st + d).
Qed.

(** ** Ticks *)

(** Any message on any model: [Update] returns, reads the clock forward,
    keeps the start time and the timing data of the characters; a tick gives
    each character the glyph of its state and any other message leaves the
    glyphs alone. *)
Lemma Update_any (c : cyclingChars) (m : Msg) (w : World) :
  exists c' cmds w',
    Update c m w = Ok (c', cmds) w' /\
    nowReadings w' = nowReadings w /\ (nowCount w <= nowCount w')%nat /\
    start c' = start c /\
    forall j ch, nth_error (chars c) j = Some ch ->
      exists v, nth_error (chars c') j =
                  Some (mkChar (finalValue ch) v (initialDelay ch) (lifetime ch)) /\
                (m = stepCharsMsg ->
                 glyphOf ch (start c) (nowReadings w (nowCount w + j)) v) /\
                (m <> stepCharsMsg -> v = currentValue ch).
Proof.
  assert (Hsame : forall j ch, nth_error (chars c) j = Some ch ->
            exists v, nth_error (chars c) j =
                        Some (mkChar (finalValue ch) v (initialDelay ch) (lifetime ch)) /\
                      (otherMsg = stepCharsMsg ->
                       glyphOf ch (start c) (nowReadings w (nowCount w + j)) v) /\
                      (v = currentValue ch)).
  { intros j ch H. exists (currentValue ch). destruct ch; simpl.
    split; [exact H|]. split; [discriminate | reflexivity]. }
  destruct m as [|t|].
  - destruct (stepLoop_spec (start c) (chars c) w)
      as (cs' & w1 & Hl & Hr & Hc & _ & _ & _ & _ & Hnth).
    assert (Hg : forall j ch, nth_error (chars c) j = Some ch ->
              exists v, nth_error cs' j =
                          Some (mkChar (finalValue ch) v (initialDelay ch) (lifetime ch)) /\
                        (stepCharsMsg = stepCharsMsg ->
                         glyphOf ch (start c) (nowReadings w (nowCount w + j)) v) /\
                        (stepCharsMsg <> stepCharsMsg -> v = currentValue ch)).
    { intros j ch H. destruct (Hnth j ch H) as (v & Hn & Hv).
      exists v. split; [exact Hn|]. split; [auto | congruence]. }
    unfold Update. rewrite (bind_Ok _ _ _ _ _ Hl).
    cbn [ellipsisStarted withChars chars start label].
    destruct (ellipsisStarted c); cbn [negb].
    + eexists _, _, _. split; [reflexivity|]. simpl.
      split; [exact Hr|]. split; [lia|]. split; [reflexivity | exact Hg].
    + unfold bind. rewrite countLoop_spec.
      destruct (_ =? _); eexists _, _, _; (split; [reflexivity|]); simpl;
        (split; [exact Hr|]); (split; [lia|]); (split; [reflexivity | exact Hg]).
  - unfold Update. destruct (spinnerUpdate (ellipsis c) t) as [e cmd].
    eexists _, _, w. split; [reflexivity|]. simpl.
    split; [reflexivity|]. split; [lia|]. split; [reflexivity|].
    intros j ch H. destruct (Hsame j ch H) as (v & Hn & _ & Hv).
    exists v. split; [exact Hn|]. split; [discriminate | auto].
  - eexists c, [], w. split; [reflexivity|].
    split; [reflexivity|]. split; [lia|]. split; [reflexivity|].
    intros j ch H. destruct (Hsame j ch H) as (v & Hn & _ & Hv).
    exists v. split; [exact Hn|]. split; [discriminate | auto].
Qed.

(** With a positive final value, the first tick after the delay has elapsed
    settles a character. *)
Lemma tick_settles (c : cyclingChars) (w : World) (j : nat) (ch : cyclingChar) :
  monotonic w -> nth_error (chars c) j = Some ch -> 0 < finalValue ch ->
  start c + initialDelay ch < nowReadings w (nowCount w) ->
  exists c' cmds w',
    Update c stepCharsMsg w = Ok (c', cmds) w' /\ settled c' w' j.
Proof.
  intros Hmono Hj Hf Hel.
  destruct (Update_any c stepCharsMsg w) as (c' & cmds & w' & Hu & Hr & Hc & Hst & Hg).
  destruct (Hg j ch Hj) as (v & Hn & Hv & _). specialize (Hv eq_refl).
  exists c', cmds, w'. split; [exact Hu|].
  pose proof (Hmono (nowCount w) (nowCount w + j)%nat ltac:(lia)) as H1.
  pose proof (Hmono (nowCount w) (nowCount w') Hc) as H2.
  unfold glyphOf in Hv. rewrite stateAt_endOfLife in Hv by (simpl; lia).
  eexists. split; [exact Hn|]. simpl. rewrite Hst, Hr. repeat split; auto; lia.
Qed.

(** A settled character stays settled through every later step. *)
Lemma settled_stays (msgs : list Msg) (c : cyclingChars) (w : World) (j : nat) :
  monotonic w -> settled c w j ->
  length (trace msgs c w) = length msgs /\
  forall s, In s (trace msgs c w) ->
    exists ch, nth_error (chars (post s)) j = Some ch /\
               currentValue ch = finalValue ch.
Proof.
  revert c w. induction msgs as [|m ms IH]; intros c w Hmono Hs.
  - split; [reflexivity | intros s []].
  - destruct Hs as (ch & Hj & Hf & Hel & Hcv).
    destruct (Update_any c m w) as (c' & cmds & w' & Hu & Hr & Hc & Hst & Hg).
    destruct (Hg j ch Hj) as (v & Hn & Hv1 & Hv2).
    assert (Hvf : v = finalValue ch).
    { destruct m as [|t|].
      - specialize (Hv1 eq_refl). unfold glyphOf in Hv1.
        pose proof (Hmono (nowCount w) (nowCount w + j)%nat ltac:(lia)).
        rewrite stateAt_endOfLife in Hv1 by lia. exact Hv1.
      - rewrite Hv2 by discriminate. exact Hcv.
      - rewrite Hv2 by discriminate. exact Hcv. }
    assert (Hs' : settled c' w' j).
    { eexists. split; [exact Hn|]. simpl. rewrite Hst, Hr.
      pose proof (Hmono (nowCount w) (nowCount w') Hc). repeat split; auto; lia. }
    assert (Hmono' : monotonic w') by (unfold monotonic; now rewrite Hr).
    destruct (IH c' w' Hmono' Hs') as [Hlen Hall].
    simpl. rewrite Hu. simpl. split; [now rewrite Hlen|].
    intros s [<-|Hin]; [|now apply Hall].
    simpl. eexists. split; [exact Hn | exact Hvf].
Qed.

(** C3 fails on the code for a label that holds the rune NUL, by the same
    test [finalValue > 0] of [state] that C2 fails by: the model built for
    the label NUL has one character with final value 0 and no delay, and each
    of its ticks, all taken after the start, shows a glyph of the alphabet
    (['2'], ['3'], ['4']), never the final value. *)
Theorem nul_label_rune_never_settles (s : Style) :
  exists c w1,
    newCyclingChars 0 nulLabel false s tickingWorld = Ok c w1 /\
    start c = 0 /\
    map finalValue (chars c) = [0] /\ map initialDelay (chars c) = [0] /\
    map (fun st => (nowReadings (preWorld st) (nowCount (preWorld st)),
                    map currentValue (chars (post st))))
        (trace [stepCharsMsg; stepCharsMsg; stepCharsMsg] c w1)
    = [(1000000000, [50]); (3000000000, [51]); (5000000000, [52])].
Proof. eexists _, _. split; [vm_compute; reflexivity|]. vm_compute. auto. Qed.

(** ** The ellipsis *)

Lemma reachable_wellFormed (c : cyclingChars) : reachable c -> wellFormed c.
Proof.
  induction 1 as [u lbl tc s w w' c H | c c' m cmds w w' _ IH Hu].
  - now apply newCyclingChars_wellFormed in H.
  - destruct (Update_spec c m w IH) as (c2 & cmds2 & w2 & Hu2 & Hwf & _).
    rewrite Hu in Hu2. now injection Hu2 as -> _ _.
Qed.

Lemma resolvesAt_dec (s : Step) : resolvesAt s \/ ~ resolvesAt s.
Proof.
  unfold resolvesAt.
  destruct (stepMsg s); [|right; intros [H _]; discriminate ..].
  destruct (labelResolved (pre s) (preWorld s)); [left | right]; intuition congruence.
Qed.

Lemma resolving_before_dec (tr : list Step) (n : nat) :
  (forall j sj, (j < n)%nat -> nth_error tr j = Some sj -> ~ resolvesAt sj) \/
  (exists j sj, (j < n)%nat /\ nth_error tr j = Some sj /\ resolvesAt sj).
Proof.
  induction n as [|n [IH|IH]].
  - left. intros j sj H. lia.
  - destruct (nth_error tr n) as [sn|] eqn:Hn.
    + destruct (resolvesAt_dec sn) as [Hr|Hr].
      * right. exists n, sn. split; [lia | now split].
      * left. intros j sj Hj Hnth.
        destruct (Nat.eq_dec j n) as [->|Hne]; [congruence|].
        apply (IH j sj); [lia | exact Hnth].
    + left. intros j sj Hj Hnth.
      destruct (Nat.eq_dec j n) as [->|Hne]; [congruence|].
      apply (IH j sj); [lia | exact Hnth].
  - right. destruct IH as (j & sj & Hj & H). exists j, sj. split; [lia | exact H].
Qed.

Lemma first_resolving (tr : list Step) (k : nat) (s : Step) :
  nth_error tr k = Some s -> resolvesAt s ->
  exists k0 s0, nth_error tr k0 = Some s0 /\ resolvesAt s0 /\
    forall j sj, (j < k0)%nat -> nth_error tr j = Some sj -> ~ resolvesAt sj.
Proof.
  revert s. induction k as [k IH] using lt_wf_ind. intros s Hn Hr.
  destruct (resolving_before_dec tr k) as [Hnone|(j & sj & Hj & Hnj & Hrj)].
  - exists k, s. split; [exact Hn|]. split; [exact Hr | exact Hnone].
  - exact (IH j Hj sj Hnj Hrj).
Qed.

(** C4: along every sequence of messages handled from construction on, no
    step fails; a step turns [ellipsisStarted] from false to true exactly
    when it is the first tick on which every label character is at end of
    life; the command that starts the ellipsis is emitted on that step and on
    no other; the flag, once true, stays true; so the flag turns at most
    once, and it does turn when some tick resolves the label. *)
Theorem ellipsis_starts_once (u : Z) (lbl : string) (trueColor : bool)
    (s : Style) (w0 w1 : World) (c0 : cyclingChars) (msgs : list Msg) :
  newCyclingChars u lbl trueColor s w0 = Ok c0 w1 ->
  let tr := trace msgs c0 w1 in
  length tr = length msgs /\
  (forall k st, nth_error tr k = Some st ->
     (startsEllipsis st <->
      resolvesAt st /\
      forall j sj, (j < k)%nat -> nth_error tr j = Some sj -> ~ resolvesAt sj) /\
     (In ellipsisStartCmd (stepCmds st) <-> startsEllipsis st) /\
     (ellipsisStarted (pre st) = true -> ellipsisStarted (post st) = true)) /\
  (forall k k' st st',
     nth_error tr k = Some st -> nth_error tr k' = Some st' ->
     startsEllipsis st -> startsEllipsis st' -> k = k') /\
  ((exists k st, nth_error tr k = Some st /\ resolvesAt st) ->
   exists k st, nth_error tr k = Some st /\ startsEllipsis st).
Proof.
  intros Hnew tr.
  apply newCyclingChars_wellFormed in Hnew.
  destruct Hnew as (_ & Hwf & Hes0 & _).
  destruct (trace_flag msgs c0 w1 Hwf) as [Hlen Hflag]. fold tr in Hlen, Hflag.
  assert (Hstep : forall k st, nth_error tr k = Some st ->
     (startsEllipsis st <->
      resolvesAt st /\
      forall j sj, (j < k)%nat -> nth_error tr j = Some sj -> ~ resolvesAt sj) /\
     (In ellipsisStartCmd (stepCmds st) <-> startsEllipsis st) /\
     (ellipsisStarted (pre st) = true -> ellipsisStarted (post st) = true)).
  { intros k st Hk.
    destruct (Hflag k st Hk) as [Hwfk Hpre].
    destruct (trace_step msgs c0 w1 k st Hk) as [w' Hu].
    destruct (Update_spec (pre st) (stepMsg st) (preWorld st) Hwfk)
      as (c' & cmds & w2 & Hu2 & _ & Hpost & Hcmd).
    rewrite Hu in Hu2. injection Hu2 as <- <- _.
    fold (resolvesAt st) in Hpost, Hcmd.
    assert (Hfalse : ellipsisStarted (pre st) = false <->
              forall j sj, (j < k)%nat -> nth_error tr j = Some sj -> ~ resolvesAt sj).
    { split.
      - intros Hf j sj Hj Hnj Hr.
        assert (ellipsisStarted (pre st) = true)
          by (apply Hpre; right; exists j, sj; auto).
        congruence.
      - intros Hnone. destruct (ellipsisStarted (pre st)) eqn:E; [|reflexivity].
        destruct (proj1 Hpre eq_refl) as [H|(j & sj & Hj & Hnj & Hr)];
          [congruence | exfalso; exact (Hnone j sj Hj Hnj Hr)]. }
    assert (Hstarts : startsEllipsis st <->
              ellipsisStarted (pre st) = false /\ resolvesAt st).
    { unfold startsEllipsis. rewrite Hpost. split.
      - intros [Hf [Ht|Hr]]; [congruence | now split].
      - intros [Hf Hr]. split; [exact Hf | now right]. }
    split; [|split].
    - rewrite Hstarts, Hfalse. tauto.
    - rewrite Hcmd, Hstarts. reflexivity.
    - intros Ht. apply Hpost. now left. }
  split; [exact Hlen|]. split; [exact Hstep|]. split.
  - intros k k' st st' Hk Hk' Hs Hs'.
    apply (proj1 (Hstep k st Hk)) in Hs. apply (proj1 (Hstep k' st' Hk')) in Hs'.
    destruct Hs as [Hr Hfirst], Hs' as [Hr' Hfirst'].
    destruct (Nat.lt_trichotomy k k') as [Hlt|[Heq|Hgt]]; [|exact Heq|].
    + exfalso. exact (Hfirst' k st Hlt Hk Hr).
    + exfalso. exact (Hfirst k' st' Hgt Hk' Hr').
  - intros (k & st & Hk & Hr).
    destruct (first_resolving tr k st Hk Hr) as (k0 & s0 & Hk0 & Hr0 & Hfirst).
    exists k0, s0. split; [exact Hk0|].
    apply (proj1 (Hstep k0 s0 Hk0)). now split.
Qed.

(** C9: a character carrying the sentinel [-1] is in no reading of the clock
    at end of life; and on every model a program can hold, the characters
    are the placeholders, all carrying the sentinel, followed by one
    character per rune of the label, and the count that the second loop of a
    tick makes over all characters is the count it would make over the label
    characters alone, taking for them the same readings of the clock. *)
Theorem placeholders_never_end_of_life :
  (forall (ch : cyclingChar) (st : Z) (w : World),
      finalValue ch = -1 ->
      exists cs w', state ch st w = Ok cs w' /\ cs <> charEndOfLifeState) /\
  (forall c : cyclingChars,
      reachable c ->
      chars c = placeholders c ++ labelChars c /\
      Forall (fun ch => finalValue ch = -1) (placeholders c) /\
      length (labelChars c) = length (label c) /\
      forall w : World,
        forRange (chars c) 0 (countBody (start c)) 0 w =
        forRange (labelChars c) (len (placeholders c)) (countBody (start c)) 0
                 (skipNow (length (placeholders c)) w)).
Proof.
  split.
  - intros ch st w Hf. eexists _, _. split; [reflexivity|].
    now apply stateAt_sentinel.
  - intros c Hreach. pose proof (reachable_wellFormed c Hreach) as Hwf.
    split; [symmetry; apply firstn_skipn|].
    split; [now apply wellFormed_placeholders|].
    split; [now apply labelChars_length|].
    intros w. rewrite !countLoop_spec.
    rewrite (countEol_label c _ _ Hwf).
    unfold skipNow; simpl. f_equal. f_equal.
    rewrite <- (firstn_skipn (length (chars c) - length (label c)) (chars c)) at 1.
    fold (placeholders c) (labelChars c). rewrite length_app. lia.
Qed.

(** ** The constructor *)

Lemma clampedSize_in_range (u : Z) :
  0 <= u < 2 ^ 63 -> clampedSize u = Z.min u maxCyclingChars.
Proof.
  intros H. unfold clampedSize, intOfUint, maxCyclingChars.
  rewrite Z.mod_small by lia.
  replace (u + 2 ^ 63 - 2 ^ 63) with u by lia.
  destruct (u >? 120) eqn:E.
  - apply Z.gtb_lt in E. lia.
  - rewrite Z.gtb_ltb in E. apply Z.ltb_ge in E. lia.
Qed.

Lemma clampedSize_wrapped (u : Z) :
  2 ^ 63 <= u < 2 ^ 64 -> clampedSize u = u - 2 ^ 64.
Proof.
  intros H. unfold clampedSize, intOfUint, maxCyclingChars.
  replace (u + 2 ^ 63) with ((u - 2 ^ 63) + 1 * 2 ^ 64) by lia.
  rewrite Z.mod_add, Z.mod_small by lia.
  destruct (_ >? 120) eqn:E; [apply Z.gtb_lt in E|]; lia.
Qed.

(** A rune decoded from a string is not negative, so a label character
    never carries the sentinel. *)
Lemma decodeRune_nonneg (bs : list Z) :
  Forall (fun b => 0 <= b) bs -> 0 <= fst (decodeRune bs).
Proof.
  intros H. unfold decodeRune, runeError.
  destruct bs as [|b0 rest]; [simpl; lia|].
  inversion H; subst. cbv zeta.
  repeat match goal with
         | |- context [if ?b then _ else _] => destruct b eqn:?
         | |- context [match ?l with [] => _ | _ :: _ => _ end] => destruct l
         end; cbn [fst]; try lia;
    repeat match goal with
           | E : _ && _ = true |- _ => apply andb_prop in E; destruct E
           end;
    repeat match goal with
           | E : (_ <? _) = true |- _ => apply Z.ltb_lt in E
           end; lia.
Qed.

Lemma decodeFrom_nonneg (bs : list Z) (skip : nat) :
  Forall (fun b => 0 <= b) bs -> Forall (fun r => 0 <= r) (decodeFrom skip bs).
Proof.
  intros H. revert skip.
  induction H as [|b rest Hb Hrest IH]; intros skip; cbn [decodeFrom].
  - constructor.
  - destruct skip as [|k]; [|apply IH].
    pose proof (decodeRune_nonneg (b :: rest) (Forall_cons _ Hb Hrest)) as Hr.
    destruct (decodeRune (b :: rest)) as [r wd]. constructor; [exact Hr | apply IH].
Qed.

Lemma runesOf_nonneg (s : string) : Forall (fun r => 0 <= r) (runesOf s).
Proof.
  apply decodeFrom_nonneg. unfold bytesOf. apply Forall_forall.
  intros b Hb. apply in_map_iff in Hb. destruct Hb as (a & <- & _). lia.
Qed.

(** For a requested count below [2 ^ 63] the constructor returns and the
    placeholders are as many as the request, up to 120; they are the
    characters that cycle forever. *)
Lemma placeholder_count_in_range (u : Z) (lbl : string) (trueColor : bool)
    (s : Style) (w : World) :
  0 <= u < 2 ^ 63 ->
  exists c w',
    newCyclingChars u lbl trueColor s w = Ok c w' /\
    len (placeholders c) = Z.min u maxCyclingChars /\
    Forall isPlaceholder (placeholders c) /\
    len (filter (fun ch => finalValue ch <? 0) (chars c)) = Z.min u maxCyclingChars.
Proof.
  intros Hu. pose proof (clampedSize_in_range u Hu) as Hc.
  assert (Hn : 0 <= clampedSize u) by (rewrite Hc; unfold maxCyclingChars; lia).
  destruct (newCyclingChars_returns u lbl trueColor s w Hn)
    as (ph & lab & w' & He & _).
  eexists _, w'. split; [exact He|].
  destruct (newCyclingChars_wellFormed _ _ _ _ _ _ _ He)
    as (_ & Hwf & _ & Hlab & _ & Hlen & Hall & _).
  rewrite <- Hc. split; [exact Hlen|]. split; [exact Hall|].
  rewrite <- Hlen.
  rewrite <- (firstn_skipn (length (ph ++ lab) - length (labelOf (clampedSize u) lbl))
                           (ph ++ lab)) at 1.
  set (c := mkChars _ _ _ _ _ _ _) in *.
  change (filter _ _) with
    (filter (fun ch => finalValue ch <? 0) (placeholders c ++ labelChars c)).
  rewrite filter_app. unfold len. rewrite length_app. f_equal.
  assert (H1 : filter (fun ch => finalValue ch <? 0) (placeholders c) = placeholders c).
  { apply forallb_filter_id, forallb_forall. intros ch Hin.
    pose proof (proj1 (Forall_forall _ _) Hall ch Hin) as [Hf _].
    rewrite Hf. reflexivity. }
  assert (H2 : filter (fun ch => finalValue ch <? 0) (labelChars c) = []).
  { pose proof (wellFormed_labelChars c Hwf) as Hm.
    pose proof (runesOf_nonneg
      ((if clampedSize u =? 0 then EmptyString else " "%string) ++ lbl)) as Hnn.
    fold (labelOf (clampedSize u) lbl) in Hnn. rewrite <- Hlab, <- Hm in Hnn.
    clear -Hnn. induction (labelChars c) as [|x l IH]; [reflexivity|].
    simpl in Hnn |- *. inversion Hnn; subst.
    replace (finalValue x <? 0) with false by (symmetry; apply Z.ltb_ge; lia).
    now apply IH. }
  rewrite H1, H2. simpl. lia.
Qed.

(** A request of 500 gives 120 placeholders. *)
Lemma placeholder_count_500 (lbl : string) (trueColor : bool) (s : Style) (w : World) :
  exists c w',
    newCyclingChars 500 lbl trueColor s w = Ok c w' /\
    len (placeholders c) = 120.
Proof.
  destruct (placeholder_count_in_range 500 lbl trueColor s w ltac:(lia))
    as (c & w' & He & Hlen & _).
  exists c, w'. split; [exact He | exact Hlen].
Qed.

(** For every requested count from [2 ^ 63] up, the conversion to [int]
    gives a negative count and the constructor panics. *)
Lemma newCyclingChars_panics_when_wrapped (u : Z) (lbl : string)
    (trueColor : bool) (s : Style) (w : World) :
  2 ^ 63 <= u < 2 ^ 64 ->
  exists p, newCyclingChars u lbl trueColor s w = Panic p.
Proof.
  intros Hu. eexists. apply newCyclingChars_panics.
  rewrite (clampedSize_wrapped u Hu). lia.
Qed.

(** C5 fails on the code for a requested count of [2 ^ 63]: the clamp is
    applied after the conversion [int(initialCharsSize)], which turns that
    count into [-2 ^ 63]; nothing is clamped and the constructor panics
    instead of building 120 placeholders. *)
Theorem placeholder_clamp_misses_wrapped_count (lbl : string)
    (trueColor : bool) (s : Style) (w : World) :
  clampedSize (2 ^ 63) = - 2 ^ 63 /\
  exists p, newCyclingChars (2 ^ 63) lbl trueColor s w = Panic p.
Proof.
  split; [reflexivity|]. eexists.
  apply newCyclingChars_panics. reflexivity.
Qed.

(** C8 fails on the code at the largest value of the count type,
    [2 ^ 64 - 1], by the same conversion that C5 fails by: the count becomes
    [-1], the slice is made for the 8 runes of the label less one, and the
    first label character is written at index [-1]. *)
Theorem constructor_panics_on_largest_count (trueColor : bool) (s : Style)
    (w : World) :
  newCyclingChars (2 ^ 64 - 1) "Loading" trueColor s w =
  Panic (IndexOutOfRange (-1) 7).
Proof.
  rewrite newCyclingChars_panics by reflexivity. reflexivity.
Qed.

(** C6: for a requested count of 0 and the label ["Loading"] the constructor
    returns, the characters are as many as the 7 runes of the label and the
    label has no separator before it; and whenever the constructor returns,
    the label is the runes of the given string with the separator before them
    exactly when the clamped count is not zero, and without it exactly when
    the clamped count is zero. It returns for every count below [2 ^ 63]. *)
Theorem separator_iff_placeholders :
  (forall (trueColor : bool) (s : Style) (w : World),
      exists c w',
        newCyclingChars 0 "Loading" trueColor s w = Ok c w' /\
        length (chars c) = length (runesOf "Loading") /\
        length (chars c) = 7%nat /\
        label c = runesOf "Loading" /\
        map finalValue (chars c) = runesOf "Loading") /\
  (forall (u : Z) (lbl : string) (trueColor : bool) (s : Style)
          (w w' : World) (c : cyclingChars),
      newCyclingChars u lbl trueColor s w = Ok c w' ->
      (label c = 32 :: runesOf lbl <-> clampedSize u <> 0) /\
      (label c = runesOf lbl <-> clampedSize u = 0) /\
      len (chars c) = clampedSize u + len (label c)) /\
  (forall (u : Z) (lbl : string) (trueColor : bool) (s : Style) (w : World),
      0 <= u < 2 ^ 63 ->
      exists c w', newCyclingChars u lbl trueColor s w = Ok c w').
Proof.
  split; [|split].
  - intros tc s w.
    destruct (newCyclingChars_returns 0 "Loading" tc s w ltac:(discriminate))
      as (ph & lab & w' & He & Hph & _ & Hm & _).
    change (clampedSize 0) with 0 in *.
    destruct ph; [|rewrite len_cons in Hph; pose proof (len_nonneg ph); lia].
    eexists _, w'. split; [exact He|]. simpl.
    change (labelOf 0 "Loading") with (runesOf "Loading") in *.
    assert (Hlen : length lab = 7%nat)
      by (rewrite <- (length_map finalValue), Hm; reflexivity).
    repeat split; auto.
  - intros u lbl tc s w w' c H.
    apply newCyclingChars_wellFormed in H.
    destruct H as (_ & _ & _ & Hlab & Hlen & _).
    rewrite Hlab. split; [|split; [|rewrite <- Hlab; exact Hlen]].
    + destruct (Z.eq_dec (clampedSize u) 0) as [E|E].
      * rewrite E, labelOf_zero. split; [|tauto].
        intros H. apply (f_equal (@length Z)) in H. simpl in H. lia.
      * rewrite labelOf_nonzero by exact E. tauto.
    + destruct (Z.eq_dec (clampedSize u) 0) as [E|E].
      * rewrite E, labelOf_zero. tauto.
      * rewrite labelOf_nonzero by exact E. split; [|tauto].
        intros H. apply (f_equal (@length Z)) in H. simpl in H. lia.
  - intros u lbl tc s w Hu.
    destruct (placeholder_count_in_range u lbl tc s w Hu) as (c & w' & He & _).
    now exists c, w'.
Qed.

(** ** The gradient *)

(** C7: a ramp of length [L] is a function of [L] alone (it reads neither
    the clock nor the random source), has [L] colours, and its [i]-th colour
    is the blend of the two endpoints at the parameter
    [float64(i) / float64(L)]. For [L = 1] the one colour is the blend at
    the parameter [0 / 1], which is the first endpoint whenever blending at
    that parameter gives the first colour back. *)
Theorem gradient_ramp_steps (L : Z) :
  0 <= L ->
  exists colors : list string,
    (forall w, makeGradientRamp L w = Ok colors w) /\
    len colors = L /\
    (forall i, 0 <= i < L ->
       nth_error colors (Z.to_nat i) =
       Some (hexOf (blendLuv (colorfulHex startColor) (colorfulHex endColor)
                             (floatDiv (floatOfInt i) (floatOfInt L))))) /\
    (L = 1 ->
       colors = [hexOf (blendLuv (colorfulHex startColor) (colorfulHex endColor)
                                 (floatDiv (floatOfInt 0) (floatOfInt 1)))] /\
       ((forall a b, blendLuv a b (floatDiv (floatOfInt 0) (floatOfInt 1)) = a) ->
        colors = [hexOf (colorfulHex startColor)])).
Proof.
  intros HL. exists (map (rampStep L) (indices 0 (Z.to_nat L))).
  split; [intros w; now apply makeGradientRamp_spec|].
  split; [unfold len; rewrite length_map, indices_length; lia|].
  split.
  - intros i Hi. rewrite nth_error_map, indices_nth by lia.
    simpl. rewrite Z2Nat.id by lia. reflexivity.
  - intros ->. split; [reflexivity|]. intros Hlaw.
    simpl. unfold rampStep. now rewrite Hlaw.
Qed.

(** ** The gradient text *)

(** A string of fewer than 3 bytes is returned as it is. *)
Lemma makeGradientText_short (st : Style) (str : string) (w : World) :
  len (bytesOf str) < 3 -> makeGradientText st str w = Ok str w.
Proof.
  intros H. unfold makeGradientText.
  now replace (len (bytesOf str) <? 3) with true by (symmetry; apply Z.ltb_lt; lia).
Qed.

(** A string of ASCII bytes decodes to as many runes as it has bytes, and
    on such a string the helper returns. *)
Lemma decodeFrom_ascii (bs : list Z) :
  Forall (fun b => 0 <= b < 128) bs -> decodeFrom 0 bs = bs.
Proof.
  induction 1 as [|b rest Hb _ IH]; [reflexivity|].
  cbn [decodeFrom]. unfold decodeRune.
  replace (b <? 128) with true by (symmetry; apply Z.ltb_lt; lia).
  cbn [Nat.pred]. now rewrite IH.
Qed.

Lemma gradientTextLoop_total (st : Style) (runes : list Z) (rmp : list string)
    (i : Z) (b : string) (w : World) :
  0 <= i -> i + len rmp <= len runes ->
  exists out,
    forRange rmp i
      (fun i c b =>
         r <- getIndex runes i ;;
         ret (b ++ render (foreground st c) (stringOfRune r))%string) b w
    = Ok out w.
Proof.
  revert i b. induction rmp as [|c rmp IH]; intros i b Hi Hlen.
  - now exists b.
  - rewrite len_cons in Hlen. pose proof (len_nonneg rmp).
    destruct (getIndex_in_range runes i w ltac:(lia)) as (r & Hg & _).
    destruct (IH (i + 1) (b ++ render (foreground st c) (stringOfRune r))%string
                ltac:(lia) ltac:(lia)) as [out Hout].
    exists out. cbn [forRange].
    assert (Hb : (r <- getIndex runes i ;;
                  ret (b ++ render (foreground st c) (stringOfRune r))%string) w
                 = Ok (b ++ render (foreground st c) (stringOfRune r))%string w)
      by (now rewrite (bind_Ok _ _ _ _ _ Hg)).
    now rewrite (bind_Ok _ _ _ _ _ Hb).
Qed.

Lemma makeGradientText_ascii_total (st : Style) (str : string) (w : World) :
  Forall (fun b => 0 <= b < 128) (bytesOf str) ->
  exists out, makeGradientText st str w = Ok out w.
Proof.
  intros Hascii. unfold makeGradientText.
  destruct (len (bytesOf str) <? 3); [now exists str|].
  pose proof (len_nonneg (bytesOf str)) as Hnn.
  rewrite (bind_Ok _ _ _ _ _ (makeGradientRamp_spec (len (bytesOf str)) w Hnn)).
  apply gradientTextLoop_total; [lia|].
  unfold runesOf. rewrite (decodeFrom_ascii _ Hascii).
  unfold len at 1. rewrite length_map, indices_length. unfold len. lia.
Qed.

(** C10 fails on the code for the string ["é12"]: it has 4 bytes and 3
    runes, the ramp is made for the 4 bytes, and the fourth step of the loop
    reads the rune at index 3 of 3. *)
Theorem makeGradientText_panics_on_multibyte (st : Style) (w : World) :
  len (bytesOf "é12") = 4 /\ len (runesOf "é12") = 3 /\
  makeGradientText st "é12" w = Panic (IndexOutOfRange 3 3).
Proof. repeat split. Qed.

(** ** The view *)

Lemma viewLoop_total (c : cyclingChars) (t : list cyclingChar) (i : Z)
    (b : string) (w : World) :
  0 <= i -> exists out, forRange t i (viewBody c) b w = Ok out w.
Proof.
  revert i b. induction t as [|ch t IH]; intros i b Hi.
  - now exists b.
  - assert (Hb : exists b', viewBody c i ch b w = Ok b' w).
    { unfold viewBody.
      destruct ((len (ramp c) >? 0) && (i <? len (ramp c))) eqn:E.
      - apply andb_prop in E. destruct E as [_ E]. apply Z.ltb_lt in E.
        destruct (getIndex_in_range (ramp c) i w ltac:(lia)) as (x & Hg & _).
        assert (Hs : (st <- getIndex (ramp c) i ;; ret (Some st)) w = Ok (Some x) w)
          by (now rewrite (bind_Ok _ _ _ _ _ Hg)).
        rewrite (bind_Ok _ _ _ _ _ Hs). eexists; reflexivity.
      - destruct (finalValue ch <? 0); eexists; reflexivity. }
    destruct Hb as [b' Hb]. destruct (IH (i + 1) b' ltac:(lia)) as [out Hout].
    exists out. simpl. now rewrite (bind_Ok _ _ _ _ _ Hb).
Qed.

(** [View] returns on every model and reads nothing of the world. *)
Lemma View_total (c : cyclingChars) (w : World) :
  exists out, View c w = Ok out w.
Proof.
  destruct (viewLoop_total c (chars c) 0 EmptyString w ltac:(lia)) as [b Hb].
  unfold View. rewrite (bind_Ok _ _ _ _ _ Hb). eexists; reflexivity.
Qed.

End Claims.

(** * The claims on a concrete run

    Two placeholders and the label ["Go"], in the world whose clock advances
    one second per reading. *)

Lemma goModel_built :
  newCyclingChars (col := plainCollaborators) 2 "Go" false None tickingWorld
  = Ok goModel goWorld.
Proof. vm_compute. reflexivity. Qed.

Lemma goWorld_monotonic : monotonic goWorld.
Proof. intros i j H. simpl. lia. Qed.

Lemma random_glyph_uniform_over_alphabet_witness :
  monotonic goWorld /\
  nth_error (chars goModel) 0 = Some (mkChar (-1) 0 0 0) /\
  finalValue (mkChar (-1) 0 0 0) < 0 /\
  start goModel + initialDelay (mkChar (-1) 0 0 0)
    <= nowReadings goWorld (nowCount goWorld) /\
  exists c' cmds w' ch',
    Update goModel stepCharsMsg goWorld = Ok (c', cmds) w' /\
    nth_error (chars c') 0 = Some ch' /\
    In (currentValue ch') charRunes.
Proof.
  assert (H1 : monotonic goWorld) by exact goWorld_monotonic.
  assert (H2 : nth_error (chars goModel) 0 = Some (mkChar (-1) 0 0 0))
    by reflexivity.
  assert (H3 : finalValue (mkChar (-1) 0 0 0) < 0) by (simpl; lia).
  assert (H4 : start goModel + initialDelay (mkChar (-1) 0 0 0)
               <= nowReadings goWorld (nowCount goWorld)) by (vm_compute; discriminate).
  repeat (split; [assumption|]).
  exact (proj2 (proj2 (proj2 (proj2
           (random_glyph_uniform_over_alphabet (col := plainCollaborators)))))
           goModel goWorld 0%nat _ H1 H2 H3 H4).
Defined.

Lemma ellipsis_starts_once_witness :
  newCyclingChars (col := plainCollaborators) 2 "Go" false None tickingWorld
  = Ok goModel goWorld /\
  let tr := trace [stepCharsMsg; otherMsg; stepCharsMsg] goModel goWorld in
  length tr = 3%nat /\
  exists k st, nth_error tr k = Some st /\ startsEllipsis st.
Proof.
  assert (H : newCyclingChars (col := plainCollaborators) 2 "Go" false None
                tickingWorld = Ok goModel goWorld) by (vm_compute; reflexivity).
  split; [exact H|].
  destruct (ellipsis_starts_once (col := plainCollaborators)
              2 "Go" false None tickingWorld goWorld goModel
              [stepCharsMsg; otherMsg; stepCharsMsg] H) as (Hlen & _ & _ & Hex).
  split; [exact Hlen|]. apply Hex.
  eexists 0%nat, _. split; [vm_compute; reflexivity|].
  split; vm_compute; reflexivity.
Defined.

Lemma separator_iff_placeholders_witness :
  newCyclingChars (col := plainCollaborators) 2 "Go" false None tickingWorld
  = Ok goModel goWorld /\
  0 <= 2 < 2 ^ 63 /\
  (label goModel = 32 :: runesOf "Go" <-> clampedSize 2 <> 0) /\
  (label goModel = runesOf "Go" <-> clampedSize 2 = 0) /\
  len (chars goModel) = clampedSize 2 + len (label goModel) /\
  exists c w',
    newCyclingChars (col := plainCollaborators) 2 "Go" false None tickingWorld
    = Ok c w'.
Proof.
  assert (H : newCyclingChars (col := plainCollaborators) 2 "Go" false None
                tickingWorld = Ok goModel goWorld) by (vm_compute; reflexivity).
  assert (Hu : 0 <= 2 < 2 ^ 63) by (split; [vm_compute; discriminate | reflexivity]).
  split; [exact H|]. split; [exact Hu|].
  destruct (separator_iff_placeholders (col := plainCollaborators))
    as (_ & Hsep & Hret).
  destruct (Hsep 2 "Go"%string false None tickingWorld goWorld goModel H)
    as (A & B & C).
  repeat (split; [assumption|]).
  exact (Hret 2 "Go"%string false None tickingWorld Hu).
Defined.

Lemma gradient_ramp_steps_witness :
  0 <= 1 /\
  (forall a b : @Colorful plainCollaborators,
      blendLuv a b (floatDiv (floatOfInt 0) (floatOfInt 1)) = a) /\
  exists colors : list string,
    (forall w, makeGradientRamp (col := plainCollaborators) 1 w = Ok colors w) /\
    len colors = 1 /\ colors = ["#F967DC"%string].
Proof.
  assert (H0 : 0 <= 1) by (vm_compute; discriminate).
  assert (Hlaw : forall a b : @Colorful plainCollaborators,
             blendLuv a b (floatDiv (floatOfInt 0) (floatOfInt 1)) = a)
    by (intros a b; reflexivity).
  split; [exact H0|]. split; [exact Hlaw|].
  destruct (gradient_ramp_steps (col := plainCollaborators) 1 H0)
    as (colors & Hrun & Hlen & _ & Hone).
  exists colors. split; [exact Hrun|]. split; [exact Hlen|].
  exact (proj2 (Hone eq_refl) Hlaw).
Defined.

Lemma placeholders_never_end_of_life_witness :
  finalValue (mkChar (-1) 0 0 0) = -1 /\
  reachable goModel /\
  (exists cs w', state (mkChar (-1) 0 0 0) 0 goWorld = Ok cs w' /\
                 cs <> charEndOfLifeState) /\
  Forall (fun ch => finalValue ch = -1) (placeholders goModel) /\
  forall w : World,
    forRange (chars goModel) 0 (countBody (start goModel)) 0 w =
    forRange (labelChars goModel) (len (placeholders goModel))
             (countBody (start goModel)) 0
             (skipNow (length (placeholders goModel)) w).
Proof.
  assert (H1 : finalValue (mkChar (-1) 0 0 0) = -1) by reflexivity.
  assert (H2 : reachable goModel)
    by exact (reach_new (col := plainCollaborators) 2 "Go" false None
                tickingWorld goWorld goModel goModel_built).
  split; [exact H1|]. split; [exact H2|].
  destruct (placeholders_never_end_of_life (col := plainCollaborators))
    as [Hstate Hcount].
  split; [exact (Hstate _ 0 goWorld H1)|].
  destruct (Hcount goModel H2) as (_ & Hph & _ & Hloops).
  split; [exact Hph | exact Hloops].
Defined.

(** * Further properties of the animation *)

Section More.
Context {col : Collaborators}.

(** ** The state function over time *)

(** X1: the state of a character never goes back as time passes: from
    initial it can only move on to cycling and end of life, and end of life
    is never left; at the very instant the delay has elapsed the state is
    cycling whatever the final value is. *)
Theorem state_never_goes_back (c : cyclingChar) (st t1 t2 : Z) :
  t1 <= t2 ->
  (stateRank (stateAt c st t1) <= stateRank (stateAt c st t2))%nat /\
  (stateAt c st t1 = charEndOfLifeState -> stateAt c st t2 = charEndOfLifeState) /\
  (stateAt c st t2 = charInitialState -> stateAt c st t1 = charInitialState) /\
  stateAt c st (st + initialDelay c) = charCyclingState.
Proof.
  intros H. unfold stateAt.
  destruct (t1 <? st + initialDelay c) eqn:E1;
  destruct (t2 <? st + initialDelay c) eqn:E2;
  destruct (finalValue c >? 0) eqn:Ef;
  destruct (t1 >? st + initialDelay c) eqn:G1;
  destruct (t2 >? st + initialDelay c) eqn:G2;
  rewrite Z.ltb_irrefl; cbn [andb stateRank];
  repeat match goal with
         | E : (_ <? _) = true |- _ => apply Z.ltb_lt in E
         | E : (_ <? _) = false |- _ => apply Z.ltb_ge in E
         | E : (_ >? _) = true |- _ => apply Z.gtb_lt in E
         | E : (_ >? _) = false |- _ => rewrite Z.gtb_ltb in E; apply Z.ltb_ge in E
         end;
  try lia;
  (split; [lia|]); (split; [congruence|]); (split; [congruence|]);
  destruct (st + initialDelay c >? st + initialDelay c) eqn:G;
  try reflexivity; apply Z.gtb_lt in G; lia.
Qed.

(** ** What every message keeps *)

Lemma map_pointwise {A B} (f : A -> B) (a b : list A) :
  length b = length a ->
  (forall j x, nth_error a j = Some x ->
     exists y, nth_error b j = Some y /\ f y = f x) ->
  map f b = map f a.
Proof.
  revert b. induction a as [|x a IH]; intros [|y b] Hlen H; try discriminate;
    [reflexivity|].
  simpl. f_equal.
  - destruct (H 0%nat x eq_refl) as (y' & Hy & Hf). now injection Hy as <-.
  - apply IH; [simpl in Hlen; lia|].
    intros j x' Hj. exact (H (S j) x' Hj).
Qed.

Lemma Update_frame (c : cyclingChars) (m : Msg) (w : World) :
  exists c' cmds w',
    Update c m w = Ok (c', cmds) w' /\
    (start c' = start c /\ label c' = label c /\ ramp c' = ramp c /\
     styles c' = styles c /\
     map finalValue (chars c') = map finalValue (chars c) /\
     map initialDelay (chars c') = map initialDelay (chars c) /\
     map lifetime (chars c') = map lifetime (chars c) /\
     (ellipsisStarted c = true -> ellipsisStarted c' = true)) /\
    (nowReadings w' = nowReadings w /\ rndSamples w' = rndSamples w) /\
    (m = stepCharsMsg ->
     ellipsis c' = ellipsis c /\
     (cmds = [stepCharsCmd] \/ cmds = [stepCharsCmd; ellipsisStartCmd]) /\
     nowCount w' =
       (nowCount w + (if ellipsisStarted c then 1 else 2) * length (chars c))%nat) /\
    (m <> stepCharsMsg ->
     chars c' = chars c /\ ellipsisStarted c' = ellipsisStarted c /\ w' = w /\
     ~ In stepCharsCmd cmds /\ ~ In ellipsisStartCmd cmds).
Proof.
  destruct m as [|t|].
  - destruct (stepLoop_spec (start c) (chars c) w)
      as (cs' & w1 & Hl & Hr & Hc & Hs & Hlen & Hfv & Hid & Hnth).
    assert (Hlt : map lifetime cs' = map lifetime (chars c)).
    { apply map_pointwise; [exact Hlen|]. intros j x Hj.
      destruct (Hnth j x Hj) as (v & Hn & _). eexists. split; [exact Hn | reflexivity]. }
    unfold Update. rewrite (bind_Ok _ _ _ _ _ Hl).
    cbn [ellipsisStarted withChars chars start label].
    destruct (ellipsisStarted c) eqn:Hes; cbn [negb].
    + eexists _, _, _. split; [reflexivity|]. simpl.
      split; [repeat split; auto|]. split; [now split|].
      split; [|intros H; congruence].
      intros _. split; [reflexivity|]. split; [now left|]. lia.
    + unfold bind. rewrite countLoop_spec.
      assert (Hcount : nowCount (skipNow (length cs') w1)
                       = (nowCount w + 2 * length (chars c))%nat)
        by (simpl; rewrite Hc, Hlen; lia).
      destruct (_ =? _).
      * eexists _, _, _. split; [reflexivity|]. simpl.
        split; [repeat split; auto|]. split; [now split|].
        split; [|intros H; congruence].
        intros _. split; [reflexivity|]. split; [now right | exact Hcount].
      * eexists _, _, _. split; [reflexivity|]. simpl.
        split; [repeat split; try assumption; try reflexivity; congruence|].
        split; [now split|].
        split; [|intros H; congruence].
        intros _. split; [reflexivity|]. split; [now left | exact Hcount].
  - unfold Update. destruct (spinnerUpdate (ellipsis c) t) as [e cmd].
    eexists _, _, w. split; [reflexivity|]. simpl.
    split; [repeat split; auto|]. split; [now split|].
    split; [discriminate|]. intros _. repeat split; auto.
    + destruct cmd; simpl; intros H; [destruct H as [H|[]]; discriminate | exact H].
    + destruct cmd; simpl; intros H; [destruct H as [H|[]]; discriminate | exact H].
  - eexists c, [], w. split; [reflexivity|].
    split; [repeat split; auto|]. split; [now split|].
    split; [discriminate|]. intros _. repeat split; auto.
Qed.

Lemma charRunes_positive : Forall (fun r => 0 < r) charRunes.
Proof. unfold charRunes. repeat (constructor; [reflexivity|]). constructor. Qed.

(** X2: after a tick every character keeps its final value, its delay and
    its lifetime, and shows the glyph of the state it has at the reading of
    the clock taken for it: ['.'] while the delay has not elapsed, the final
    value once a positive final value's delay is passed, and a rune of the
    alphabet otherwise. A character that cycles forever never shows its
    sentinel: its glyph is positive. *)
Theorem tick_glyph_by_state (c : cyclingChars) (w : World) (j : nat) (ch : cyclingChar) :
  nth_error (chars c) j = Some ch ->
  exists c' cmds w' v,
    Update c stepCharsMsg w = Ok (c', cmds) w' /\
    nth_error (chars c') j =
      Some (mkChar (finalValue ch) v (initialDelay ch) (lifetime ch)) /\
    let now := nowReadings w (nowCount w + j) in
    (now < start c + initialDelay ch -> v = 46) /\
    (0 < finalValue ch -> start c + initialDelay ch < now -> v = finalValue ch) /\
    (finalValue ch <= 0 -> start c + initialDelay ch <= now -> In v charRunes) /\
    (now = start c + initialDelay ch -> In v charRunes) /\
    (finalValue ch < 0 -> 0 < v).
Proof.
  intros Hj.
  destruct (Update_tick_glyphs c w) as (c' & cmds & w' & Hu & Hg).
  destruct (Hg j ch Hj) as (v & Hn & Hv).
  exists c', cmds, w', v. split; [exact Hu|]. split; [exact Hn|].
  unfold glyphOf in Hv. cbv zeta.
  set (now := nowReadings w (nowCount w + j)) in *.
  repeat split.
  - intros H. now rewrite stateAt_initial in Hv.
  - intros Hf H. now rewrite stateAt_endOfLife in Hv.
  - intros Hf H. now rewrite stateAt_cycling in Hv.
  - intros H. unfold stateAt in Hv. rewrite H, Z.ltb_irrefl in Hv.
    replace (start c + initialDelay ch >? start c + initialDelay ch) with false in Hv
      by (symmetry; rewrite Z.gtb_ltb; apply Z.ltb_irrefl).
    now rewrite andb_false_r in Hv.
  - intros Hf. destruct (stateAt ch (start c) now) eqn:E.
    + subst v. lia.
    + exact (proj1 (Forall_forall _ _) charRunes_positive v Hv).
    + apply stateAt_endOfLife_inv in E. lia.
Qed.

(** X3: whatever the message and whatever the model, [Update] returns and
    keeps the start time, the label, the ramp, the styles and the final
    value, delay and lifetime of every character; and a flag
    [ellipsisStarted] that is set stays set. *)
Theorem Update_keeps_frame (c : cyclingChars) (m : Msg) (w : World) :
  exists c' cmds w',
    Update c m w = Ok (c', cmds) w' /\
    start c' = start c /\ label c' = label c /\ ramp c' = ramp c /\
    styles c' = styles c /\
    map finalValue (chars c') = map finalValue (chars c) /\
    map initialDelay (chars c') = map initialDelay (chars c) /\
    map lifetime (chars c') = map lifetime (chars c) /\
    (ellipsisStarted c = true -> ellipsisStarted c' = true).
Proof.
  destruct (Update_frame c m w) as (c' & cmds & w' & Hu & Hf & _).
  exists c', cmds, w'. split; [exact Hu | exact Hf].
Qed.

(** X4: a tick always asks for the next tick: its commands are the step
    command alone or the step command followed by the start of the ellipsis;
    it leaves the spinner alone and reads the clock once per character, and
    once more per character while the ellipsis has not started. Any other
    message asks for no step and no start of the ellipsis, leaves the
    characters and the flag as they are, and reads neither the clock nor the
    random source. *)
Theorem tick_reschedules (c : cyclingChars) (m : Msg) (w : World) :
  exists c' cmds w',
    Update c m w = Ok (c', cmds) w' /\
    (m = stepCharsMsg ->
     ellipsis c' = ellipsis c /\
     (cmds = [stepCharsCmd] \/ cmds = [stepCharsCmd; ellipsisStartCmd]) /\
     nowCount w' =
       (nowCount w + (if ellipsisStarted c then 1 else 2) * length (chars c))%nat) /\
    (m <> stepCharsMsg ->
     chars c' = chars c /\ ellipsisStarted c' = ellipsisStarted c /\ w' = w /\
     ~ In stepCharsCmd cmds /\ ~ In ellipsisStartCmd cmds).
Proof.
  destruct (Update_frame c m w) as (c' & cmds & w' & Hu & _ & _ & Ht & Hn).
  exists c', cmds, w'. split; [exact Hu|]. split; [exact Ht | exact Hn].
Qed.

Lemma settled_value_stays (msgs : list Msg) (c : cyclingChars) (w : World)
    (j : nat) (f : Z) :
  monotonic w -> 0 < f ->
  (exists ch, nth_error (chars c) j = Some ch /\ finalValue ch = f /\
              start c + initialDelay ch < nowReadings w (nowCount w) /\
              currentValue ch = f) ->
  length (trace msgs c w) = length msgs /\
  forall s, In s (trace msgs c w) ->
    exists ch, nth_error (chars (post s)) j = Some ch /\
               finalValue ch = f /\ currentValue ch = f.
Proof.
  revert c w. induction msgs as [|m ms IH]; intros c w Hmono Hf Hs.
  - split; [reflexivity | intros s []].
  - destruct Hs as (ch & Hj & Hfv & Hel & Hcv).
    destruct (Update_any c m w) as (c' & cmds & w' & Hu & Hr & Hc & Hst & Hg).
    destruct (Hg j ch Hj) as (v & Hn & Hv1 & Hv2).
    assert (Hvf : v = f).
    { destruct m as [|t|].
      - specialize (Hv1 eq_refl). unfold glyphOf in Hv1.
        pose proof (Hmono (nowCount w) (nowCount w + j)%nat ltac:(lia)).
        rewrite stateAt_endOfLife in Hv1 by lia. congruence.
      - rewrite Hv2 by discriminate. exact Hcv.
      - rewrite Hv2 by discriminate. exact Hcv. }
    assert (Hs' : exists ch', nth_error (chars c') j = Some ch' /\ finalValue ch' = f /\
                   start c' + initialDelay ch' < nowReadings w' (nowCount w') /\
                   currentValue ch' = f).
    { eexists. split; [exact Hn|]. simpl. rewrite Hst, Hr.
      pose proof (Hmono (nowCount w) (nowCount w') Hc). repeat split; auto; lia. }
    assert (Hmono' : monotonic w') by (unfold monotonic; now rewrite Hr).
    destruct (IH c' w' Hmono' Hf Hs') as [Hlen Hall].
    simpl. rewrite Hu. simpl. split; [now rewrite Hlen|].
    intros s [<-|Hin]; [|now apply Hall].
    simpl. eexists. split; [exact Hn|]. simpl. now split.
Qed.

(** X5: a character with a positive final value whose delay has elapsed
    shows its final value after the next tick and after every message that
    follows it, ticks or not: it never goes back to a random glyph or to the
    placeholder. *)
Theorem positive_final_value_settles (c : cyclingChars) (w : World) (j : nat)
    (ch : cyclingChar) (msgs : list Msg) :
  monotonic w ->
  nth_error (chars c) j = Some ch ->
  0 < finalValue ch ->
  start c + initialDelay ch < nowReadings w (nowCount w) ->
  length (trace (stepCharsMsg :: msgs) c w) = S (length msgs) /\
  forall s, In s (trace (stepCharsMsg :: msgs) c w) ->
    exists ch', nth_error (chars (post s)) j = Some ch' /\
                finalValue ch' = finalValue ch /\
                currentValue ch' = finalValue ch.
Proof.
  intros Hmono Hj Hf Hel.
  destruct (Update_any c stepCharsMsg w) as (c' & cmds & w' & Hu & Hr & Hc & Hst & Hg).
  destruct (Hg j ch Hj) as (v & Hn & Hv & _). specialize (Hv eq_refl).
  pose proof (Hmono (nowCount w) (nowCount w + j)%nat ltac:(lia)) as H1.
  pose proof (Hmono (nowCount w) (nowCount w') Hc) as H2.
  unfold glyphOf in Hv. rewrite stateAt_endOfLife in Hv by lia. subst v.
  assert (Hmono' : monotonic w') by (unfold monotonic; now rewrite Hr).
  destruct (settled_value_stays msgs c' w' j (finalValue ch) Hmono' Hf) as [Hlen Hall].
  { eexists. split; [exact Hn|]. simpl. rewrite Hst, Hr. repeat split; auto; lia. }
  cbn [trace]. rewrite Hu. cbn [length]. split; [now rewrite Hlen|].
  intros s [<-|Hin]; [|now apply Hall].
  simpl. eexists. split; [exact Hn|]. simpl. now split.
Qed.

(** ** What the constructor builds *)

Lemma placeholderLoop_full (k : nat) (pre rest : list cyclingChar) (w : World) :
  exists ph w',
    forUpTo k (len pre)
      (fun i cs => d <- makeInitialDelay ;; setIndex cs i (mkChar (-1) 0 d 0))
      (pre ++ repeat zeroChar k ++ rest) w = Ok (pre ++ ph ++ rest) w' /\
    length ph = k /\ Forall isPlaceholder ph /\
    nowReadings w' = nowReadings w /\ nowCount w' = nowCount w /\
    rndSamples w' = rndSamples w /\ rndCount w' = (rndCount w + k)%nat.
Proof.
  revert pre w. induction k as [|k IH]; intros pre w.
  - exists [], w. simpl. unfold ret. repeat split; auto.
  - set (d := rndSamples w (rndCount w) mod 8 * (millisecond * 60)).
    set (x := mkChar (-1) 0 d 0).
    set (w1 := mkWorld (nowReadings w) (nowCount w) (rndSamples w) (S (rndCount w))).
    destruct (IH (pre ++ [x]) w1) as (ph & w2 & Hl & Hlen & Hall & Hr & Hc & Hs & Hrc).
    exists (x :: ph), w2. cbn [forUpTo repeat app].
    assert (Hb : (d <- makeInitialDelay ;;
                  setIndex (pre ++ zeroChar :: repeat zeroChar k ++ rest)
                           (len pre) (mkChar (-1) 0 d 0)) w
                 = Ok (pre ++ x :: repeat zeroChar k ++ rest) w1).
    { rewrite (bind_Ok _ _ _ _ _ (makeInitialDelay_spec w)). apply setIndex_app. }
    rewrite (bind_Ok _ _ _ _ _ Hb).
    replace (len pre + 1) with (len (pre ++ [x])) by (rewrite len_app; reflexivity).
    replace (pre ++ x :: repeat zeroChar k ++ rest)
      with ((pre ++ [x]) ++ repeat zeroChar k ++ rest) by (now rewrite <- app_assoc).
    rewrite Hl, <- app_assoc. simpl.
    split; [reflexivity|]. split; [now rewrite Hlen|].
    split; [|rewrite Hr, Hc, Hs, Hrc; simpl; repeat split; lia].
    constructor; [|exact Hall].
    repeat split. exists (rndSamples w (rndCount w) mod 8).
    split; [apply Z.mod_pos_bound; lia | unfold x, d; simpl; lia].
Qed.

Lemma labelLoop_full (n : Z) (t : list Z) (t0 pre : list cyclingChar) (i : Z) (w : World) :
  len pre = i + n -> length t0 = length t ->
  exists lab w',
    forRange t i
      (fun i r cs =>
         d <- makeInitialDelay ;;
         l <- makeDelay 5 180 ;;
         setIndex cs (i + n) (mkChar r 0 d l))
      (pre ++ t0) w = Ok (pre ++ lab) w' /\
    Forall2 isLabelChar t lab /\
    nowReadings w' = nowReadings w /\ nowCount w' = nowCount w /\
    rndSamples w' = rndSamples w /\ rndCount w' = (rndCount w + 2 * length t)%nat.
Proof.
  revert t0 pre i w. induction t as [|r t IH]; intros [|y t0] pre i w Hi H;
    try discriminate.
  - exists [], w. simpl. unfold ret. repeat split; auto.
  - set (d := rndSamples w (rndCount w) mod 8 * (millisecond * 60)).
    set (w1 := mkWorld (nowReadings w) (nowCount w) (rndSamples w) (S (rndCount w))).
    set (l := rndSamples w1 (rndCount w1) mod 5 * (millisecond * 180)).
    set (w2 := mkWorld (nowReadings w1) (nowCount w1) (rndSamples w1) (S (rndCount w1))).
    set (x := mkChar r 0 d l).
    destruct (IH t0 (pre ++ [x]) (i + 1) w2)
      as (lab & w3 & Hl & Hm & Hr & Hc & Hs & Hrc).
    { rewrite len_app. change (len [x]) with 1. lia. }
    { simpl in H. lia. }
    exists (x :: lab), w3. cbn [forRange].
    assert (Hb : (d <- makeInitialDelay ;;
                  l <- makeDelay 5 180 ;;
                  setIndex (pre ++ y :: t0) (i + n) (mkChar r 0 d l)) w
                 = Ok (pre ++ x :: t0) w2).
    { rewrite (bind_Ok _ _ _ _ _ (makeInitialDelay_spec w)).
      rewrite (bind_Ok _ _ _ _ _ (makeDelay_spec 5 180 w1 ltac:(lia))).
      rewrite <- Hi. apply setIndex_app. }
    rewrite (bind_Ok _ _ _ _ _ Hb).
    replace (pre ++ x :: t0) with ((pre ++ [x]) ++ t0) by (now rewrite <- app_assoc).
    rewrite Hl, <- app_assoc. simpl.
    split; [reflexivity|].
    split; [|rewrite Hr, Hc, Hs, Hrc; simpl; repeat split; lia].
    constructor; [|exact Hm].
    repeat split.
    + exists (rndSamples w (rndCount w) mod 8).
      split; [apply Z.mod_pos_bound; lia | unfold x, d; simpl; lia].
    + exists (rndSamples w1 (rndCount w1) mod 5).
      split; [apply Z.mod_pos_bound; lia | unfold x, l; simpl; lia].
Qed.

(** Everything the constructor builds when the clamped size is not
    negative. *)
Lemma newCyclingChars_contents (u : Z) (lbl : string) (trueColor : bool)
    (s : Style) (w : World) :
  0 <= clampedSize u ->
  exists ph lab w',
    newCyclingChars u lbl trueColor s w =
    Ok (mkChars (nowReadings w (nowCount w)) (ph ++ lab)
                (rampOf (clampedSize u) trueColor)
                (labelOf (clampedSize u) lbl) spinnerNew false s) w' /\
    len ph = clampedSize u /\ Forall isPlaceholder ph /\
    Forall2 isLabelChar (labelOf (clampedSize u) lbl) lab /\
    nowReadings w' = nowReadings w /\ nowCount w' = S (nowCount w) /\
    rndSamples w' = rndSamples w /\
    rndCount w' = (rndCount w + length ph + 2 * length lab)%nat.
Proof.
  intros Hn. unfold newCyclingChars. fold (labelOf (clampedSize u) lbl).
  set (n := clampedSize u) in *. set (L := labelOf n lbl).
  set (w1 := mkWorld (nowReadings w) (S (nowCount w)) (rndSamples w) (rndCount w)).
  rewrite (bind_Ok _ _ w w1 (nowReadings w (nowCount w)) eq_refl).
  rewrite (bind_Ok _ _ _ _ _ (rampPart_spec n trueColor w1 Hn)).
  pose proof (len_nonneg L) as HL.
  rewrite (bind_Ok _ _ _ _ _ (make_Ok zeroChar (n + len L) w1 ltac:(lia))).
  replace (Z.to_nat (n + len L)) with (Z.to_nat n + length L)%nat
    by (unfold len; lia).
  rewrite repeat_app.
  destruct (placeholderLoop_full (Z.to_nat n) [] (repeat zeroChar (length L)) w1)
    as (ph & w2 & Hl1 & Hlen & Hall & Hr2 & Hc2 & Hs2 & Hrc2).
  change (len (@nil cyclingChar)) with 0 in Hl1. cbn [app] in Hl1.
  rewrite (bind_Ok _ _ _ _ _ Hl1).
  destruct (labelLoop_full n L (repeat zeroChar (length L)) ph 0 w2)
    as (lab & w3 & Hl2 & Hm & Hr3 & Hc3 & Hs3 & Hrc3).
  { unfold len. rewrite Hlen. lia. }
  { apply repeat_length. }
  rewrite (bind_Ok _ _ _ _ _ Hl2).
  exists ph, lab, w3. unfold ret. split; [reflexivity|].
  split; [unfold len; rewrite Hlen; lia|].
  split; [exact Hall|]. split; [exact Hm|].
  rewrite Hr3, Hr2, Hc3, Hc2, Hs3, Hs2, Hrc3, Hrc2, Hlen.
  rewrite <- (Forall2_length Hm). now repeat split.
Qed.

(** X6: for a requested count below [2 ^ 63] the constructor returns a
    model whose characters are the placeholders, as many as the request up to
    120, followed by one character per rune of the label. Every character
    shows the rune 0; a placeholder carries the sentinel, no lifetime and a
    delay of 0 to 7 times 60 ms; a label character carries its rune, a delay
    of 0 to 7 times 60 ms and a lifetime of 0 to 4 times 180 ms. The start
    time is the one reading taken from the clock, the ellipsis is a new
    spinner not yet started, and one random sample is used per placeholder
    and two per label character. *)
Theorem constructor_contents (u : Z) (lbl : string) (trueColor : bool)
    (s : Style) (w : World) :
  0 <= u < 2 ^ 63 ->
  exists c w' ph lab,
    newCyclingChars u lbl trueColor s w = Ok c w' /\
    chars c = ph ++ lab /\
    len ph = Z.min u maxCyclingChars /\
    Forall isPlaceholder ph /\
    Forall2 isLabelChar (label c) lab /\
    start c = nowReadings w (nowCount w) /\
    ellipsisStarted c = false /\ ellipsis c = spinnerNew /\ styles c = s /\
    nowReadings w' = nowReadings w /\ nowCount w' = S (nowCount w) /\
    rndSamples w' = rndSamples w /\
    rndCount w' = (rndCount w + length ph + 2 * length lab)%nat.
Proof.
  intros Hu. pose proof (clampedSize_in_range u Hu) as Hc.
  assert (Hn : 0 <= clampedSize u) by (rewrite Hc; unfold maxCyclingChars; lia).
  destruct (newCyclingChars_contents u lbl trueColor s w Hn)
    as (ph & lab & w' & He & Hph & Hall & Hlab & Hw).
  eexists _, w', ph, lab. split; [exact He|]. simpl.
  rewrite <- Hc. repeat split; auto; apply Hw.
Qed.

(** X7: the gradient ramp of the model is empty unless the clamped count is
    at least 3 and the terminal is in true colour; then it has one style per
    placeholder, the [i]-th being a new style whose foreground is the colour
    of step [i] of a ramp of that many steps. *)
Theorem constructor_ramp (u : Z) (lbl : string) (trueColor : bool)
    (s : Style) (w : World) :
  0 <= u < 2 ^ 63 ->
  exists c w',
    newCyclingChars u lbl trueColor s w = Ok c w' /\
    let n := Z.min u maxCyclingChars in
    ((n < 3 \/ trueColor = false) -> ramp c = []) /\
    (3 <= n -> trueColor = true ->
     len (ramp c) = n /\ len (ramp c) = len (placeholders c) /\
     forall i, 0 <= i < n ->
       nth_error (ramp c) (Z.to_nat i) =
       Some (foreground newStyle
               (hexOf (blendLuv (colorfulHex startColor) (colorfulHex endColor)
                                (floatDiv (floatOfInt i) (floatOfInt n)))))).
Proof.
  intros Hu. pose proof (clampedSize_in_range u Hu) as Hc.
  assert (Hn : 0 <= clampedSize u) by (rewrite Hc; unfold maxCyclingChars; lia).
  destruct (newCyclingChars_returns u lbl trueColor s w Hn)
    as (ph & lab & w' & He & Hph & _).
  destruct (newCyclingChars_wellFormed _ _ _ _ _ _ _ He) as (_ & _ & _ & _ & _ & Hpl & _).
  eexists _, w'. split; [exact He|]. cbv zeta. rewrite <- Hc.
  set (n := clampedSize u) in *. split.
  - intros H. cbn [ramp]. unfold rampOf.
    destruct H as [H| ->]; [|now rewrite andb_false_r].
    now replace (n >=? 3) with false
      by (symmetry; rewrite Z.geb_leb; apply Z.leb_gt; lia).
  - intros H3 ->. rewrite Hpl. cbn [ramp]. unfold rampOf.
    replace (n >=? 3) with true by (symmetry; rewrite Z.geb_leb; apply Z.leb_le; lia).
    cbn [andb].
    assert (Hlen : len (map (foreground newStyle)
                          (map (rampStep n) (indices 0 (Z.to_nat n)))) = n)
      by (unfold len; rewrite !length_map, indices_length; lia).
    split; [exact Hlen|]. split; [exact Hlen|].
    intros i Hi. rewrite !nth_error_map, indices_nth by lia.
    simpl. rewrite Z2Nat.id by lia. reflexivity.
Qed.

(** ** When the label resolves *)

Lemma allEol_after (st D : Z) (rd : nat -> Z) (cs : list cyclingChar) (k : nat) :
  Forall (fun ch => 0 < finalValue ch /\ initialDelay ch <= D) cs ->
  (forall k', (k <= k')%nat -> st + D < rd k') ->
  allEol st rd k cs = true.
Proof.
  intros H. revert k. induction H as [|ch cs [Hf Hd] _ IH]; intros k Hk; simpl.
  - reflexivity.
  - rewrite stateAt_endOfLife by (try exact Hf; specialize (Hk k (le_n k)); lia).
    simpl. apply IH. intros k' Hk'. apply Hk. lia.
Qed.

Lemma allEol_positive (st : Z) (rd : nat -> Z) (cs : list cyclingChar) (k : nat) :
  allEol st rd k cs = true -> Forall (fun r => 0 < r) (map finalValue cs).
Proof.
  revert k. induction cs as [|ch cs IH]; intros k H; simpl in *.
  - constructor.
  - apply andb_prop in H. destruct H as [H1 H2].
    apply charState_eqb_eq, stateAt_endOfLife_inv in H1.
    constructor; [lia | eapply IH; exact H2].
Qed.

Lemma labelOf_positive (n : Z) (lbl : string) :
  Forall (fun r => 0 < r) (runesOf lbl) -> Forall (fun r => 0 < r) (labelOf n lbl).
Proof.
  intros H. destruct (Z.eq_dec n 0) as [->|Hn].
  - now rewrite labelOf_zero.
  - rewrite labelOf_nonzero by exact Hn. constructor; [lia | exact H].
Qed.

(** X8: when no rune of the label is NUL, a tick taken on the model the
    constructor returned, later than the longest initial delay (420 ms)
    after the start, resolves everything at once: it starts the ellipsis and
    asks for its first tick, every label character shows its rune and every
    placeholder a rune of the alphabet. *)
Theorem label_resolves_after_longest_delay (u : Z) (lbl : string)
    (trueColor : bool) (s : Style) (w0 w1 w : World) (c0 : cyclingChars) :
  newCyclingChars u lbl trueColor s w0 = Ok c0 w1 ->
  Forall (fun r => 0 < r) (runesOf lbl) ->
  monotonic w ->
  start c0 + longestInitialDelay < nowReadings w (nowCount w) ->
  exists c' w',
    Update c0 stepCharsMsg w = Ok (c', [stepCharsCmd; ellipsisStartCmd]) w' /\
    ellipsisStarted c' = true /\
    length (chars c') = length (chars c0) /\
    forall j ch', nth_error (chars c') j = Some ch' ->
      (0 < finalValue ch' -> currentValue ch' = finalValue ch') /\
      (finalValue ch' <= 0 -> In (currentValue ch') charRunes).
Proof.
  intros Hnew Hpos Hmono Hlate.
  destruct (newCyclingChars_wellFormed _ _ _ _ _ _ _ Hnew)
    as (Hn & Hwf & Hes & Hlab & _).
  destruct (newCyclingChars_contents u lbl trueColor s w0 Hn)
    as (ph & lab & w2 & He & Hph & Hall & Hl2 & _).
  rewrite He in Hnew. injection Hnew as <- _.
  set (c0 := mkChars _ _ _ _ _ _ _) in *.
  assert (HlabC : labelChars c0 = lab).
  { unfold labelChars. cbn [chars label c0].
    assert (Hsub : (length (ph ++ lab) - length (labelOf (clampedSize u) lbl))%nat
                   = length ph)
      by (rewrite length_app, (Forall2_length Hl2); lia).
    rewrite Hsub, skipn_app, Nat.sub_diag, skipn_all. reflexivity. }
  assert (Hdelay : Forall (fun ch => initialDelay ch <= longestInitialDelay) (chars c0)).
  { cbn [chars c0]. apply Forall_app. split.
    - eapply Forall_impl; [|exact Hall].
      intros ch (_ & _ & _ & k & Hk & ->). unfold longestInitialDelay, millisecond. lia.
    - clear -Hl2. induction Hl2 as [|r ch t l (_ & _ & (k & Hk & Hd) & _) _ IH];
        constructor; [|exact IH].
      rewrite Hd. unfold longestInitialDelay, millisecond. lia. }
  assert (Hres : labelResolved c0 w = true).
  { unfold labelResolved. rewrite HlabC.
    apply (allEol_after _ longestInitialDelay).
    - pose proof (labelOf_positive (clampedSize u) lbl Hpos) as HposL.
      clear -Hl2 HposL. induction Hl2 as [|r ch t l (Hf & _ & (k & Hk & Hd) & _) _ IH];
        constructor.
      + split; [inversion HposL; subst; lia|].
        rewrite Hd. unfold longestInitialDelay, millisecond. lia.
      + apply IH. now inversion HposL.
    - intros k' Hk'.
      pose proof (Hmono (nowCount w) k' ltac:(lia)). lia. }
  destruct (Update_tick c0 w Hwf)
    as (c' & w' & Hu & _ & _ & _ & _ & Hlen & _ & _ & Hflag & Hg).
  rewrite Hes, Hres in Hu, Hflag. cbn [negb andb orb] in Hu, Hflag.
  exists c', w'. split; [exact Hu|]. split; [exact Hflag|]. split; [exact Hlen|].
  intros j ch' Hj.
  destruct (nth_error (chars c0) j) as [ch|] eqn:Hj0.
  2:{ apply nth_error_None in Hj0.
      assert (j < length (chars c'))%nat by (apply nth_error_Some; congruence). lia. }
  destruct (Hg j ch Hj0) as (v & Hn' & Hv).
  rewrite Hn' in Hj. injection Hj as <-. cbn [finalValue currentValue].
  pose proof (proj1 (Forall_forall _ _) Hdelay ch (nth_error_In _ _ Hj0)) as Hd.
  cbv beta in Hd.
  pose proof (Hmono (nowCount w) (nowCount w + j)%nat ltac:(lia)) as Hm.
  unfold glyphOf in Hv. split; intros Hf.
  - rewrite stateAt_endOfLife in Hv by lia. exact Hv.
  - rewrite stateAt_cycling in Hv by lia. exact Hv.
Qed.

(** Along a run the label and the start time are those of the first
    model. *)
Lemma trace_label (msgs : list Msg) (c : cyclingChars) (w : World)
    (k : nat) (s : Step) :
  nth_error (trace msgs c w) k = Some s ->
  label (pre s) = label c /\ start (pre s) = start c /\ ramp (pre s) = ramp c.
Proof.
  revert c w k. induction msgs as [|m ms IH]; intros c w k H.
  - destruct k; discriminate.
  - cbn [trace] in H.
    destruct (Update_frame c m w)
      as (c' & cmds & w' & Hu & (Hst & Hlb & Hrp & _) & _).
    rewrite Hu in H. destruct k as [|k]; simpl in H.
    + injection H as <-. now repeat split.
    + destruct (IH c' w' k H) as (H1 & H2 & H3). repeat split; congruence.
Qed.

(** X9: the ellipsis starts only for a label all of whose runes are
    positive: if [ellipsisStarted] is set after some step of a run from
    construction on, no rune of the label is NUL. A label that holds a NUL
    never starts the ellipsis, however long the run. *)
Theorem ellipsis_needs_positive_label (u : Z) (lbl : string) (trueColor : bool)
    (s : Style) (w0 w1 : World) (c0 : cyclingChars) (msgs : list Msg)
    (k : nat) (st : Step) :
  newCyclingChars u lbl trueColor s w0 = Ok c0 w1 ->
  nth_error (trace msgs c0 w1) k = Some st ->
  ellipsisStarted (post st) = true ->
  Forall (fun r => 0 < r) (label c0) /\ ~ In 0 (label c0).
Proof.
  intros Hnew Hk Hpost.
  destruct (newCyclingChars_wellFormed _ _ _ _ _ _ _ Hnew) as (_ & Hwf & Hes & _).
  destruct (trace_flag msgs c0 w1 Hwf) as [_ Hflag].
  assert (Hres : exists j sj, nth_error (trace msgs c0 w1) j = Some sj /\ resolvesAt sj).
  { destruct (Hflag k st Hk) as [Hwfk Hpre].
    destruct (trace_step msgs c0 w1 k st Hk) as [w' Hu].
    destruct (Update_spec (pre st) (stepMsg st) (preWorld st) Hwfk)
      as (c' & cmds & w2 & Hu2 & _ & Hp & _).
    rewrite Hu in Hu2. injection Hu2 as <- _ _.
    destruct (proj1 Hp Hpost) as [Ht|Hr].
    - destruct (proj1 Hpre Ht) as [H|(j & sj & _ & Hj & Hr)]; [congruence|].
      now exists j, sj.
    - now exists k, st. }
  destruct Hres as (j & sj & Hj & _ & Hr).
  destruct (Hflag j sj Hj) as [Hwfj _].
  destruct (trace_label msgs c0 w1 j sj Hj) as (Hlb & _).
  assert (Hall : Forall (fun r => 0 < r) (label c0)).
  { rewrite <- Hlb, <- (wellFormed_labelChars _ Hwfj).
    eapply allEol_positive. exact Hr. }
  split; [exact Hall|]. intros Hin.
  pose proof (proj1 (Forall_forall _ _) Hall 0 Hin) as H0.
  cbv beta in H0. lia.
Qed.

(** X12: for a count of the unsigned type, the constructor returns exactly
    when the count is below [2 ^ 63]. From [2 ^ 63] on the count reads as the
    negative number [u - 2 ^ 64]: the constructor panics on making the slice
    when the label, separator included, has fewer runes than that number is
    below zero, and otherwise on writing its first label character at that
    negative index. *)
Theorem constructor_returns_iff_count_fits (u : Z) (lbl : string)
    (trueColor : bool) (s : Style) (w : World) :
  0 <= u < 2 ^ 64 ->
  ((exists c w', newCyclingChars u lbl trueColor s w = Ok c w') <-> u < 2 ^ 63) /\
  (2 ^ 63 <= u ->
   newCyclingChars u lbl trueColor s w =
   Panic (if u - 2 ^ 64 + (len (runesOf lbl) + 1) <? 0
          then MakesliceLenOutOfRange
          else IndexOutOfRange (u - 2 ^ 64)
                 (u - 2 ^ 64 + (len (runesOf lbl) + 1)))).
Proof.
  intros Hu.
  assert (Hwrap : 2 ^ 63 <= u ->
            newCyclingChars u lbl trueColor s w =
            Panic (if u - 2 ^ 64 + (len (runesOf lbl) + 1) <? 0
                   then MakesliceLenOutOfRange
                   else IndexOutOfRange (u - 2 ^ 64)
                          (u - 2 ^ 64 + (len (runesOf lbl) + 1)))).
  { intros H. pose proof (clampedSize_wrapped u ltac:(lia)) as Hc.
    rewrite newCyclingChars_panics by (rewrite Hc; lia).
    rewrite Hc, labelOf_nonzero by lia. now rewrite len_cons. }
  split; [|exact Hwrap]. split.
  - intros (c & w' & He).
    destruct (Z.lt_ge_cases u (2 ^ 63)) as [H|H]; [exact H|].
    rewrite (Hwrap H) in He. discriminate.
  - intros H.
    destruct (placeholder_count_in_range u lbl trueColor s w ltac:(lia))
      as (c & w' & He & _).
    now exists c, w'.
Qed.

(** ** The text of the view *)

Lemma string_app_assoc (a b c : string) :
  ((a ++ b) ++ c)%string = (a ++ (b ++ c))%string.
Proof. induction a as [|x a IH]; simpl; [reflexivity | now rewrite IH]. Qed.

Lemma string_app_nil_r (a : string) : (a ++ EmptyString)%string = a.
Proof. induction a as [|x a IH]; simpl; [reflexivity | now rewrite IH]. Qed.

Lemma joinStrings_app (a b : list string) :
  joinStrings (a ++ b) = (joinStrings a ++ joinStrings b)%string.
Proof.
  induction a as [|x a IH]; simpl; [reflexivity|].
  now rewrite IH, string_app_assoc.
Qed.

Lemma viewBody_piece (c : cyclingChars) (i : nat) (ch : cyclingChar)
    (b : string) (w : World) :
  viewBody c (Z.of_nat i) ch b w = Ok (b ++ viewPiece c i ch)%string w.
Proof.
  unfold viewBody, viewPiece.
  destruct (nth_error (ramp c) i) as [st|] eqn:E.
  - assert (Hlt : (i < length (ramp c))%nat) by (apply nth_error_Some; congruence).
    replace (len (ramp c) >? 0) with true by (symmetry; apply Z.gtb_lt; unfold len; lia).
    replace (Z.of_nat i <? len (ramp c)) with true
      by (symmetry; apply Z.ltb_lt; unfold len; lia).
    cbn [andb].
    assert (Hg : getIndex (ramp c) (Z.of_nat i) w = Ok st w).
    { unfold getIndex.
      replace (Z.of_nat i <? 0) with false by (symmetry; apply Z.ltb_ge; lia).
      now rewrite Nat2Z.id, E. }
    assert (Hs : (st <- getIndex (ramp c) (Z.of_nat i) ;; ret (Some st)) w
                 = Ok (Some st) w) by (now rewrite (bind_Ok _ _ _ _ _ Hg)).
    now rewrite (bind_Ok _ _ _ _ _ Hs).
  - apply nth_error_None in E.
    replace (Z.of_nat i <? len (ramp c)) with false
      by (symmetry; apply Z.ltb_ge; unfold len; lia).
    rewrite andb_false_r.
    destruct (finalValue ch <? 0); reflexivity.
Qed.

Lemma viewLoop_pieces (c : cyclingChars) (t : list cyclingChar) (i : nat)
    (b : string) (w : World) :
  forRange t (Z.of_nat i) (viewBody c) b w =
  Ok (b ++ joinStrings (viewPieces c i t))%string w.
Proof.
  revert i b. induction t as [|ch t IH]; intros i b.
  - simpl. unfold ret. now rewrite string_app_nil_r.
  - cbn [forRange viewPieces joinStrings fold_right].
    rewrite (bind_Ok _ _ _ _ _ (viewBody_piece c i ch b w)).
    replace (Z.of_nat i + 1) with (Z.of_nat (S i)) by lia.
    rewrite IH. fold (joinStrings (viewPieces c (S i) t)).
    now rewrite string_app_assoc.
Qed.

Lemma viewPieces_app (c : cyclingChars) (a b : list cyclingChar) (i : nat) :
  viewPieces c i (a ++ b) = viewPieces c i a ++ viewPieces c (i + length a) b.
Proof.
  revert i. induction a as [|x a IH]; intros i; simpl.
  - now rewrite Nat.add_0_r.
  - rewrite IH. now replace (S i + length a)%nat with (i + S (length a))%nat by lia.
Qed.

Lemma viewPieces_bare (c : cyclingChars) (cs : list cyclingChar) (i : nat) :
  (length (ramp c) <= i)%nat -> Forall (fun ch => 0 <= finalValue ch) cs ->
  viewPieces c i cs = bareGlyphs cs.
Proof.
  intros Hi H. revert i Hi. induction H as [|ch cs Hch _ IH]; intros i Hi; simpl.
  - reflexivity.
  - rewrite IH by lia. unfold viewPiece.
    replace (nth_error (ramp c) i) with (@None Style)
      by (symmetry; apply nth_error_None; lia).
    now replace (finalValue ch <? 0) with false by (symmetry; apply Z.ltb_ge; lia).
Qed.

Lemma viewPieces_cycling (c : cyclingChars) (cs : list cyclingChar) (i : nat) :
  ramp c = [] -> Forall (fun ch => finalValue ch = -1) cs ->
  viewPieces c i cs = styledGlyphs (repeat (styles c) (length cs)) cs.
Proof.
  intros Hr H. revert i. induction H as [|ch cs Hch _ IH]; intros i; simpl.
  - reflexivity.
  - unfold styledGlyphs in *. simpl. rewrite <- (IH (S i)). f_equal.
    unfold viewPiece. rewrite Hr, Hch.
    now replace (nth_error (@nil Style) i) with (@None Style) by (now destruct i).
Qed.

Lemma viewPieces_ramp (c : cyclingChars) (cs : list cyclingChar) (pre r : list Style) :
  ramp c = pre ++ r -> length r = length cs ->
  viewPieces c (length pre) cs = styledGlyphs r cs.
Proof.
  revert pre r. induction cs as [|ch cs IH]; intros pre [|st r] Hr Hlen;
    try discriminate; [reflexivity|].
  unfold styledGlyphs. simpl. f_equal.
  - unfold viewPiece. rewrite Hr, nth_error_app2, Nat.sub_diag by lia. reflexivity.
  - replace (S (length pre)) with (length (pre ++ [st]))
      by (rewrite length_app; simpl; lia).
    apply IH; [now rewrite <- app_assoc | simpl in Hlen; lia].
Qed.

(** On every model a program can hold, the ramp is empty or has one style
    per placeholder, and no rune of the label is negative. *)
Lemma reachable_shape (c : cyclingChars) :
  reachable c ->
  wellFormed c /\
  (ramp c = [] \/ length (ramp c) = length (placeholders c)) /\
  Forall (fun r => 0 <= r) (label c).
Proof.
  induction 1 as [u lbl tc s w w' c H | c c' m cmds w w' Hreach IH Hu].
  - destruct (newCyclingChars_wellFormed _ _ _ _ _ _ _ H)
      as (Hn & Hwf & _ & Hlab & _ & Hpl & _).
    split; [exact Hwf|].
    destruct (newCyclingChars_returns u lbl tc s w Hn) as (ph & lab & w2 & He & _).
    rewrite He in H. injection H as <- _. split.
    + unfold placeholders, len in *. cbn [chars label ramp] in *.
      unfold rampOf. destruct ((clampedSize u >=? 3) && tc); [right | now left].
      rewrite !length_map, indices_length. lia.
    + cbn [label]. unfold labelOf. apply runesOf_nonneg.
  - destruct IH as (Hwf & Hramp & Hlab).
    destruct (Update_frame c m w)
      as (c2 & cmds2 & w2 & Hu2 & (_ & Hlb & Hrp & _ & Hfv & _) & _).
    rewrite Hu in Hu2. injection Hu2 as <- _ _.
    assert (Hlen : length (chars c') = length (chars c))
      by (rewrite <- (length_map finalValue), Hfv; apply length_map).
    split; [now apply (wellFormed_timing c c')|].
    split; [|now rewrite Hlb].
    rewrite Hrp. unfold placeholders in *. rewrite !length_firstn in *.
    rewrite Hlb, Hlen. exact Hramp.
Qed.

(** X10: [View] never fails and reads nothing of the world. On every model a
    program can hold, its text is the glyphs of the placeholders, each in the
    style of the ramp at its place or, when there is no ramp, in the style of
    the cycling characters; then the glyphs of the label characters, bare;
    then the view of the ellipsis. *)
Theorem View_text (c : cyclingChars) (w : World) :
  reachable c ->
  View c w =
  Ok (joinStrings
        (styledGlyphs
           (match ramp c with
            | [] => repeat (styles c) (length (placeholders c))
            | _ :: _ => ramp c
            end)
           (placeholders c))
      ++ joinStrings (bareGlyphs (labelChars c))
      ++ spinnerView (ellipsis c))%string w.
Proof.
  intros Hreach. destruct (reachable_shape c Hreach) as (Hwf & Hramp & Hlab).
  unfold View.
  rewrite (bind_Ok _ _ _ _ _ (viewLoop_pieces c (chars c) 0 EmptyString w)).
  unfold ret. cbn [append]. f_equal.
  rewrite <- string_app_assoc. f_equal.
  rewrite <- (firstn_skipn (length (chars c) - length (label c)) (chars c)) at 1.
  fold (placeholders c) (labelChars c).
  rewrite viewPieces_app, joinStrings_app. cbn [Nat.add]. f_equal.
  - f_equal. pose proof (wellFormed_placeholders c Hwf) as Hph.
    destruct (ramp c) as [|st r] eqn:Er.
    + now apply viewPieces_cycling.
    + destruct Hramp as [Hr|Hr]; [discriminate|].
      rewrite <- Er in *. now apply (viewPieces_ramp c (placeholders c) []).
  - f_equal. apply viewPieces_bare.
    + destruct Hramp as [Hr|Hr]; rewrite Hr; simpl; lia.
    + rewrite <- (wellFormed_labelChars c Hwf) in Hlab.
      clear -Hlab. induction (labelChars c) as [|x l IH]; [constructor|].
      inversion Hlab; subst. constructor; auto.
Qed.

(** ** The gradient text *)

Lemma decodeFrom_length (bs : list Z) (skip : nat) :
  (length (decodeFrom skip bs) <= length bs)%nat.
Proof.
  revert skip. induction bs as [|b rest IH]; intros skip; cbn [decodeFrom].
  - simpl. lia.
  - destruct skip as [|k].
    + destruct (decodeRune (b :: rest)) as [r wd]. simpl.
      specialize (IH (Nat.pred wd)). lia.
    + specialize (IH k). simpl. lia.
Qed.

Lemma gradientLoop (st : Style) (L : Z) (k : nat) (pre rs : list Z)
    (b : string) (w : World) :
  forRange (map (rampStep L) (indices (len pre) k)) (len pre)
    (fun i c b =>
       r <- getIndex (pre ++ rs) i ;;
       ret (b ++ render (foreground st c) (stringOfRune r))%string) b w =
  if (k <=? length rs)%nat
  then Ok (b ++ joinStrings (gradientPieces st L (len pre) (firstn k rs)))%string w
  else Panic (IndexOutOfRange (len (pre ++ rs)) (len (pre ++ rs))).
Proof.
  revert pre rs b. induction k as [|k IH]; intros pre rs b.
  - simpl. unfold ret. now rewrite string_app_nil_r.
  - cbn [indices map forRange]. destruct rs as [|r rs].
    + cbn [Nat.leb length]. apply bind_Panic, bind_Panic.
      unfold getIndex. pose proof (len_nonneg pre).
      replace (len pre <? 0) with false by (symmetry; apply Z.ltb_ge; lia).
      replace (nth_error (pre ++ []) (Z.to_nat (len pre))) with (@None Z)
        by (symmetry; apply nth_error_None; rewrite app_nil_r; unfold len; lia).
      unfold panic. now rewrite app_nil_r.
    + assert (Hb : (r0 <- getIndex (pre ++ r :: rs) (len pre) ;;
                    ret (b ++ render (foreground st (rampStep L (len pre)))
                                     (stringOfRune r0))%string) w
                   = Ok (b ++ render (foreground st (rampStep L (len pre)))
                                     (stringOfRune r))%string w)
        by (now rewrite (bind_Ok _ _ _ _ _ (getIndex_app pre r rs w))).
      rewrite (bind_Ok _ _ _ _ _ Hb).
      replace (len pre + 1) with (len (pre ++ [r])) by (rewrite len_app; reflexivity).
      replace (pre ++ r :: rs) with ((pre ++ [r]) ++ rs) by (now rewrite <- app_assoc).
      rewrite IH. cbn [Nat.leb length firstn gradientPieces joinStrings fold_right].
      destruct (k <=? length rs)%nat; [|reflexivity].
      rewrite string_app_assoc.
      replace (len (pre ++ [r])) with (len pre + 1) by (rewrite len_app; reflexivity).
      reflexivity.
Qed.

(** X11: what [makeGradientText] does with every string. A string of fewer
    than 3 bytes is returned as it is. A longer string all of whose runes are
    one byte wide comes back as its runes one after the other, the [i]-th
    rendered in the base style with the colour of step [i] of a ramp that has
    one step per byte. A longer string with fewer runes than bytes panics
    with the index that is the number of its runes. A string never has more
    runes than bytes. *)
Theorem makeGradientText_by_width (st : Style) (str : string) (w : World) :
  (length (runesOf str) <= length (bytesOf str))%nat /\
  makeGradientText st str w =
  if len (bytesOf str) <? 3 then Ok str w
  else if (length (bytesOf str) <=? length (runesOf str))%nat
       then Ok (joinStrings (gradientPieces st (len (bytesOf str)) 0 (runesOf str))) w
       else Panic (IndexOutOfRange (len (runesOf str)) (len (runesOf str))).
Proof.
  pose proof (decodeFrom_length (bytesOf str) 0) as Hle. fold (runesOf str) in Hle.
  split; [exact Hle|]. unfold makeGradientText.
  destruct (len (bytesOf str) <? 3); [reflexivity|].
  pose proof (len_nonneg (bytesOf str)) as Hnn.
  rewrite (bind_Ok _ _ _ _ _ (makeGradientRamp_spec (len (bytesOf str)) w Hnn)).
  pose proof (gradientLoop st (len (bytesOf str)) (Z.to_nat (len (bytesOf str)))
                [] (runesOf str) EmptyString w) as Hloop.
  cbn [app] in Hloop. change (len (@nil Z)) with 0 in Hloop.
  rewrite Hloop. unfold len at 1 3. rewrite Nat2Z.id.
  destruct (length (bytesOf str) <=? length (runesOf str))%nat eqn:E; [|reflexivity].
  apply Nat.leb_le in E. rewrite firstn_all2 by lia. reflexivity.
Qed.

End More.

(** * The further properties on the concrete run *)

Lemma state_never_goes_back_witness :
  100 <= 200 /\
  (stateRank (stateAt (mkChar 71 0 150 0) 0 100)
   <= stateRank (stateAt (mkChar 71 0 150 0) 0 200))%nat /\
  stateAt (mkChar 71 0 150 0) 0 (0 + 150) = charCyclingState.
Proof.
  assert (H : 100 <= 200) by (vm_compute; discriminate).
  split; [exact H|].
  destruct (state_never_goes_back (mkChar 71 0 150 0) 0 100 200 H)
    as (Hrank & _ & _ & Hedge).
  split; [exact Hrank | exact Hedge].
Defined.

Lemma tick_glyph_by_state_witness :
  nth_error (chars goModel) 2 = Some (mkChar 32 0 120000000 540000000) /\
  exists c' cmds w' v,
    Update goModel stepCharsMsg goWorld = Ok (c', cmds) w' /\
    nth_error (chars c') 2 = Some (mkChar 32 v 120000000 540000000) /\
    v = 32.
Proof.
  assert (H : nth_error (chars goModel) 2 = Some (mkChar 32 0 120000000 540000000))
    by reflexivity.
  split; [exact H|].
  destruct (tick_glyph_by_state (col := plainCollaborators) goModel goWorld 2 _ H)
    as (c' & cmds & w' & v & Hu & Hn & _ & Hfinal & _).
  exists c', cmds, w', v. split; [exact Hu|]. split; [exact Hn|].
  apply Hfinal; reflexivity.
Defined.

Lemma Update_keeps_frame_witness :
  ellipsisStarted (withEllipsisStarted goModel true) = true /\
  exists c' cmds w',
    Update (withEllipsisStarted goModel true) stepCharsMsg goWorld
    = Ok (c', cmds) w' /\
    label c' = [32; 71; 111] /\ ellipsisStarted c' = true.
Proof.
  assert (H : ellipsisStarted (withEllipsisStarted goModel true) = true)
    by reflexivity.
  split; [exact H|].
  destruct (Update_keeps_frame (col := plainCollaborators)
              (withEllipsisStarted goModel true) stepCharsMsg goWorld)
    as (c' & cmds & w' & Hu & _ & Hlb & _ & _ & _ & _ & _ & Hflag).
  exists c', cmds, w'. split; [exact Hu|]. split; [exact Hlb | exact (Hflag H)].
Defined.

Lemma tick_reschedules_witness :
  @stepCharsMsg plainCollaborators = stepCharsMsg /\
  @otherMsg plainCollaborators <> stepCharsMsg /\
  (exists c' cmds w',
     Update goModel stepCharsMsg goWorld = Ok (c', cmds) w' /\
     (cmds = [stepCharsCmd] \/ cmds = [stepCharsCmd; ellipsisStartCmd]) /\
     nowCount w' = (nowCount goWorld + 2 * 5)%nat) /\
  (exists c' cmds w',
     Update goModel otherMsg goWorld = Ok (c', cmds) w' /\
     chars c' = chars goModel /\ w' = goWorld /\ ~ In stepCharsCmd cmds).
Proof.
  assert (H1 : @stepCharsMsg plainCollaborators = stepCharsMsg) by reflexivity.
  assert (H2 : @otherMsg plainCollaborators <> stepCharsMsg) by discriminate.
  split; [exact H1|]. split; [exact H2|]. split.
  - destruct (tick_reschedules (col := plainCollaborators) goModel stepCharsMsg goWorld)
      as (c' & cmds & w' & Hu & Ht & _).
    destruct (Ht H1) as (_ & Hc & Hn).
    exists c', cmds, w'. split; [exact Hu|]. split; [exact Hc | exact Hn].
  - destruct (tick_reschedules (col := plainCollaborators) goModel otherMsg goWorld)
      as (c' & cmds & w' & Hu & _ & Ho).
    destruct (Ho H2) as (Hc & _ & Hw & Hs & _).
    exists c', cmds, w'. split; [exact Hu|]. split; [exact Hc|].
    split; [exact Hw | exact Hs].
Defined.

Lemma positive_final_value_settles_witness :
  monotonic goWorld /\
  nth_error (chars goModel) 3 = Some (mkChar 71 0 240000000 0) /\
  0 < finalValue (mkChar 71 0 240000000 0) /\
  start goModel + initialDelay (mkChar 71 0 240000000 0)
    < nowReadings goWorld (nowCount goWorld) /\
  length (trace [stepCharsMsg; otherMsg; stepCharsMsg] goModel goWorld) = 3%nat /\
  forall s, In s (trace [stepCharsMsg; otherMsg; stepCharsMsg] goModel goWorld) ->
    exists ch', nth_error (chars (post s)) 3 = Some ch' /\
                finalValue ch' = 71 /\ currentValue ch' = 71.
Proof.
  assert (H1 : monotonic goWorld) by exact goWorld_monotonic.
  assert (H2 : nth_error (chars goModel) 3 = Some (mkChar 71 0 240000000 0))
    by reflexivity.
  assert (H3 : 0 < finalValue (mkChar 71 0 240000000 0)) by reflexivity.
  assert (H4 : start goModel + initialDelay (mkChar 71 0 240000000 0)
               < nowReadings goWorld (nowCount goWorld)) by reflexivity.
  repeat (split; [assumption|]).
  exact (positive_final_value_settles (col := plainCollaborators)
           goModel goWorld 3 _ [otherMsg; stepCharsMsg] H1 H2 H3 H4).
Defined.

Lemma constructor_contents_witness :
  0 <= 2 < 2 ^ 63 /\
  exists c w' ph lab,
    newCyclingChars (col := plainCollaborators) 2 "Go" false None tickingWorld
    = Ok c w' /\
    chars c = ph ++ lab /\ len ph = 2 /\
    Forall isPlaceholder ph /\ Forall2 isLabelChar (label c) lab /\
    rndCount w' = (rndCount tickingWorld + length ph + 2 * length lab)%nat.
Proof.
  assert (Hu : 0 <= 2 < 2 ^ 63) by (split; [vm_compute; discriminate | reflexivity]).
  split; [exact Hu|].
  destruct (constructor_contents (col := plainCollaborators)
              2 "Go"%string false None tickingWorld Hu)
    as (c & w' & ph & lab & He & Hc & Hlen & Hph & Hlab & _ & _ & _ & _ & _ & _ & _ & Hr).
  exists c, w', ph, lab. repeat (split; [assumption|]). exact Hr.
Defined.

Lemma constructor_ramp_witness :
  0 <= 3 < 2 ^ 63 /\
  exists c w',
    newCyclingChars (col := plainCollaborators) 3 "Go" true None tickingWorld
    = Ok c w' /\
    len (ramp c) = 3 /\
    nth_error (ramp c) 0 = Some (Some "#F967DC"%string) /\
    nth_error (ramp c) 2 = Some (Some "#6B50FF"%string).
Proof.
  assert (Hu : 0 <= 3 < 2 ^ 63) by (split; [vm_compute; discriminate | reflexivity]).
  split; [exact Hu|].
  destruct (constructor_ramp (col := plainCollaborators)
              3 "Go"%string true None tickingWorld Hu)
    as (c & w' & He & _ & Hramp).
  destruct (Hramp ltac:(vm_compute; discriminate) eq_refl) as (Hlen & _ & Hnth).
  exists c, w'. split; [exact He|]. split; [exact Hlen|]. split.
  - exact (Hnth 0 ltac:(split; [vm_compute; discriminate | reflexivity])).
  - exact (Hnth 2 ltac:(split; [vm_compute; discriminate | reflexivity])).
Defined.

Lemma label_resolves_after_longest_delay_witness :
  newCyclingChars (col := plainCollaborators) 2 "Go" false None tickingWorld
  = Ok goModel goWorld /\
  Forall (fun r => 0 < r) (runesOf "Go") /\
  monotonic goWorld /\
  start goModel + longestInitialDelay < nowReadings goWorld (nowCount goWorld) /\
  exists c' w',
    Update goModel stepCharsMsg goWorld
    = Ok (c', [stepCharsCmd; ellipsisStartCmd]) w' /\
    ellipsisStarted c' = true.
Proof.
  assert (H1 : newCyclingChars (col := plainCollaborators) 2 "Go" false None
                 tickingWorld = Ok goModel goWorld) by (vm_compute; reflexivity).
  assert (H2 : Forall (fun r => 0 < r) (runesOf "Go"))
    by (repeat constructor).
  assert (H3 : monotonic goWorld) by exact goWorld_monotonic.
  assert (H4 : start goModel + longestInitialDelay
               < nowReadings goWorld (nowCount goWorld)) by reflexivity.
  repeat (split; [assumption|]).
  destruct (label_resolves_after_longest_delay (col := plainCollaborators)
              2 "Go"%string false None tickingWorld goWorld goWorld goModel
              H1 H2 H3 H4) as (c' & w' & Hu & Hflag & _).
  exists c', w'. split; [exact Hu | exact Hflag].
Defined.

Lemma ellipsis_needs_positive_label_witness :
  newCyclingChars (col := plainCollaborators) 2 "Go" false None tickingWorld
  = Ok goModel goWorld /\
  exists st,
    nth_error (trace [stepCharsMsg] goModel goWorld) 0 = Some st /\
    ellipsisStarted (post st) = true /\
    Forall (fun r => 0 < r) (label goModel) /\ ~ In 0 (label goModel).
Proof.
  assert (H1 : newCyclingChars (col := plainCollaborators) 2 "Go" false None
                 tickingWorld = Ok goModel goWorld) by (vm_compute; reflexivity).
  split; [exact H1|].
  destruct (nth_error (trace [stepCharsMsg] goModel goWorld) 0) as [st|] eqn:E;
    [|vm_compute in E; discriminate E].
  assert (H2 : ellipsisStarted (post st) = true).
  { vm_compute in E. injection E as <-. reflexivity. }
  exists st. split; [reflexivity|]. split; [exact H2|].
  exact (ellipsis_needs_positive_label (col := plainCollaborators)
           2 "Go"%string false None tickingWorld goWorld goModel
           [stepCharsMsg] 0 st H1 E H2).
Defined.

Lemma constructor_returns_iff_count_fits_witness :
  0 <= 2 ^ 64 - 3 < 2 ^ 64 /\ 2 ^ 63 <= 2 ^ 64 - 3 /\
  newCyclingChars (col := plainCollaborators) (2 ^ 64 - 3) "Go" false None
    tickingWorld = Panic (IndexOutOfRange (-3) 0).
Proof.
  assert (H1 : 0 <= 2 ^ 64 - 3 < 2 ^ 64)
    by (split; [vm_compute; discriminate | reflexivity]).
  assert (H2 : 2 ^ 63 <= 2 ^ 64 - 3) by (vm_compute; discriminate).
  split; [exact H1|]. split; [exact H2|].
  exact (proj2 (constructor_returns_iff_count_fits (col := plainCollaborators)
                  (2 ^ 64 - 3) "Go"%string false None tickingWorld H1) H2).
Defined.

Lemma View_text_witness :
  reachable goModel /\
  View goModel goWorld =
  Ok (joinStrings (styledGlyphs (repeat (styles goModel) 2) (placeholders goModel))
      ++ joinStrings (bareGlyphs (labelChars goModel))
      ++ spinnerView (ellipsis goModel))%string goWorld.
Proof.
  assert (H : reachable goModel)
    by exact (reach_new (col := plainCollaborators) 2 "Go" false None
                tickingWorld goWorld goModel goModel_built).
  split; [exact H|].
  exact (View_text (col := plainCollaborators) goModel goWorld H).
Defined.
